(** * Run lifecycle of the flow-run service and of the test-flow widget

    A shallow embedding of

    - [packages/backend/src/flow-run/flow-run-service.ts]
      ([flowRunService.list], [finish], [start], [getOne] and the three
      [get...OrThrow] helpers), as state-passing functions over a world that
      holds the [flow_run] table, the wall clock of the backend, the id
      generator and the chronological list of effects the service has
      performed;
    - [packages/ui/feature-builder-canvas/.../test-flow-widget.component.ts]
      ([setStatusChecker]), as a transition function of the RxJS pipeline over
      the events its environment can deliver (interval ticks, HTTP responses,
      the exit button of the snackbar); [testFlowButtonClicked] and
      [executeTest] as functions of the answer to the submission, and the
      [shouldHideTestWidget$] of [ngOnInit] as a function of what the store
      selectors emit.

    The definitions come first; the second half of the file states and proves
    the run-lifecycle properties of the specification against them, each
    followed by its instance at a concrete scenario. *)

From Stdlib Require Import ZArith Lia.
From stdpp Require Import base option list strings gmap fin_maps sorting.

Set Default Proof Using "Type".

(** ** Shared data model ([shared] package) *)

(** Modelled from the spec: the enumeration [ExecutionOutputStatus] is
    declared in the [shared] package, which is not part of the sources at hand.
    The sources name [RUNNING] and [PAUSED]; the specification lists the
    remaining (terminal) values as succeeded, failed, stopped and
    internal-error. *)
Inductive ExecutionOutputStatus : Set :=
  | RUNNING
  | PAUSED
  | SUCCEEDED
  | FAILED
  | STOPPED
  | INTERNAL_ERROR.

#[global] Instance ExecutionOutputStatus_eq_dec : EqDecision ExecutionOutputStatus.
Proof. solve_decision. Defined.

(** Identifiers ([FlowRunId], [FlowVersionId], [FileId], ...) are opaque
    strings; timestamps ([new Date().toISOString()], the [created] column) are
    instants on the integer time line. *)
Definition Id : Set := string.
Definition Timestamp : Set := Z.
Bind Scope Z_scope with Timestamp.

Module FlowVersion.
Record t : Set := mk {
  id : Id;
  flowId : Id;
  displayName : string
}.
End FlowVersion.

Module CollectionVersion.
Record t : Set := mk {
  id : Id;
  collectionId : Id;
  displayName : string
}.
End CollectionVersion.

Module Collection.
Record t : Set := mk {
  id : Id;
  projectId : Id
}.
End Collection.

(** A row of the [flow_run] table. [created] is the creation-time column the
    listing is keyed on; it is assigned by the database when the row is
    inserted. *)
Module FlowRun.
Record t : Set := mk {
  id : Id;
  instanceId : option Id;
  projectId : Id;
  collectionId : Id;
  flowId : Id;
  flowVersionId : Id;
  collectionVersionId : Id;
  flowDisplayName : string;
  collectionDisplayName : string;
  status : ExecutionOutputStatus;
  startTime : Timestamp;
  finishTime : option Timestamp;
  logsFileId : option Id;
  created : Timestamp
}.

#[global] Instance eq_dec : EqDecision t.
Proof. solve_decision. Defined.

(** The column set written by [repo.update] in [finish]:
    [{ logsFileId, status, finishTime }]. *)
Definition set_finished (logs : Id) (st : ExecutionOutputStatus)
    (fin : Timestamp) (r : t) : t :=
  {| id := id r;
     instanceId := instanceId r;
     projectId := projectId r;
     collectionId := collectionId r;
     flowId := flowId r;
     flowVersionId := flowVersionId r;
     collectionVersionId := collectionVersionId r;
     flowDisplayName := flowDisplayName r;
     collectionDisplayName := collectionDisplayName r;
     status := st;
     startTime := startTime r;
     finishTime := Some fin;
     logsFileId := Some logs;
     created := created r |}.

(** Two rows agree on every column [finish] does not write: all of them but
    [status], [finishTime] and [logsFileId]. *)
Definition same_but_finish (r r' : t) : Prop :=
  id r' = id r ∧
  instanceId r' = instanceId r ∧
  projectId r' = projectId r ∧
  collectionId r' = collectionId r ∧
  flowId r' = flowId r ∧
  flowVersionId r' = flowVersionId r ∧
  collectionVersionId r' = collectionVersionId r ∧
  flowDisplayName r' = flowDisplayName r ∧
  collectionDisplayName r' = collectionDisplayName r ∧
  startTime r' = startTime r ∧
  created r' = created r.
End FlowRun.

(** The object literal built in [start] is a [Partial<FlowRun>]: it carries
    exactly the eleven keys below and neither [finishTime], [logsFileId] nor
    [created]. *)
Module PartialFlowRun.
Record t : Set := mk {
  id : Id;
  instanceId : option Id;
  projectId : Id;
  collectionId : Id;
  flowId : Id;
  flowVersionId : Id;
  collectionVersionId : Id;
  flowDisplayName : string;
  collectionDisplayName : string;
  status : ExecutionOutputStatus;
  startTime : Timestamp
}.
End PartialFlowRun.

(** ** Errors ([helper/activepieces-error]) *)

Inductive ErrorCode : Set :=
  | FLOW_VERSION_NOT_FOUND
  | COLLECTION_VERSION_NOT_FOUND
  | COLLECTION_NOT_FOUND.

(** What an [async] function of the service can reject with: an
    [ActivepiecesError] with its [code] and [params.id], or whatever an
    awaited call (the side effect, the repository) rejected with. *)
Inductive Thrown : Set :=
  | ActivepiecesError (code : ErrorCode) (params_id : Id)
  | Rejection (reason : string).

(** ** The backend service *)

Section FlowRunService.

(** [payload : unknown] *)
Context {Payload : Type}.

(** The effects of the service that are visible outside of it, in the order
    they are performed. *)
Inductive Effect : Type :=
  | RepoSave (row : FlowRun.t)
  | RepoUpdate (flowRunId : Id) (logsFileId : Id)
      (status : ExecutionOutputStatus) (finishTime : Timestamp)
  | SideEffectsStart (flowRun : FlowRun.t) (payload : Payload).

Record World : Type := mkWorld {
  repo : gmap Id FlowRun.t;   (* the [flow_run] table, by primary key *)
  clock : Timestamp;          (* what [new Date()] reads *)
  drawn : nat;                (* how many ids [apId] has handed out *)
  effects : list Effect
}.

Definition set_repo (f : gmap Id FlowRun.t → gmap Id FlowRun.t) (w : World) : World :=
  {| repo := f (repo w); clock := clock w; drawn := drawn w; effects := effects w |}.

Definition set_drawn (n : nat) (w : World) : World :=
  {| repo := repo w; clock := clock w; drawn := n; effects := effects w |}.

Definition perform (e : Effect) (w : World) : World :=
  {| repo := repo w; clock := clock w; drawn := drawn w; effects := effects w ++ [e] |}.

(** Time that passes between two calls; the clock never runs backwards. *)
Definition elapse (d : N) (w : World) : World :=
  {| repo := repo w; clock := (clock w + Z.of_N d)%Z; drawn := drawn w;
     effects := effects w |}.

(** An [async] computation: it reads and writes the world and either
    resolves with a value or rejects. *)
Definition M (A : Type) : Type := World → (Thrown + A) * World.

Definition ret {A} (a : A) : M A := λ w, (inr a, w).
Definition throw {A} (e : Thrown) : M A := λ w, (inl e, w).
Definition bind {A B} (m : M A) (k : A → M B) : M B :=
  λ w, match m w with
       | (inl e, w') => (inl e, w')
       | (inr a, w') => k a w'
       end.

Notation "'await' x := m 'in' k" := (bind m (λ x, k))
  (at level 10, x name, m at level 100, k at level 200,
   format "'[v' 'await'  x  :=  m  'in' '/' k ']'").
Notation "'perform!' m 'in' k" := (bind m (λ _, k))
  (at level 10, m at level 100, k at level 200,
   format "'[v' 'perform!'  m  'in' '/' k ']'").

(** *** Collaborators

    The lookup services, the id generator and the side-effect module live in
    other files of the backend; the service only calls them. *)
Variable flowVersionService_getOne : Id → option FlowVersion.t.
Variable collectionVersionService_getOne : Id → option CollectionVersion.t.
Variable collectionService_getOne : Id → option Collection.t.

(** [apId n] is the [n]-th identifier the generator hands out. *)
Variable apId : nat → Id.

(** What the clock of the database shows when a row is inserted in a given
    world: the value the [created] column of that row gets. It is another
    clock than the one [new Date()] reads in the backend, and nothing relates
    the two. *)
Variable database_now : World → Timestamp.

(** [flowRunSideEffects.start]: [None] when the returned promise resolves,
    [Some reason] when it rejects. *)
Variable flowRunSideEffects_start : FlowRun.t → Payload → option string.

Definition new_apId : M Id :=
  λ w, (inr (apId (drawn w)), set_drawn (S (drawn w)) w).

Definition new_Date : M Timestamp := λ w, (inr (clock w), w).

(** *** The repository ([databaseConnection.getRepository(FlowRunEntity)]) *)

(** [repo.save] of an object whose id is not in the table, which is what
    [start] hands it as long as the generator does not repeat an id: the row
    is inserted under its primary key and the promise resolves with the
    stored entity, the columns absent from the object being filled by the
    database ([created] with the instant its own clock shows, the nullable
    columns with null). *)
Definition stored (created : Timestamp) (p : PartialFlowRun.t) : FlowRun.t :=
  {| FlowRun.id := PartialFlowRun.id p;
     FlowRun.instanceId := PartialFlowRun.instanceId p;
     FlowRun.projectId := PartialFlowRun.projectId p;
     FlowRun.collectionId := PartialFlowRun.collectionId p;
     FlowRun.flowId := PartialFlowRun.flowId p;
     FlowRun.flowVersionId := PartialFlowRun.flowVersionId p;
     FlowRun.collectionVersionId := PartialFlowRun.collectionVersionId p;
     FlowRun.flowDisplayName := PartialFlowRun.flowDisplayName p;
     FlowRun.collectionDisplayName := PartialFlowRun.collectionDisplayName p;
     FlowRun.status := PartialFlowRun.status p;
     FlowRun.startTime := PartialFlowRun.startTime p;
     FlowRun.finishTime := None;
     FlowRun.logsFileId := None;
     FlowRun.created := created |}.

Definition repo_save (p : PartialFlowRun.t) : M FlowRun.t :=
  λ w, let row := stored (database_now w) p in
       (inr row, perform (RepoSave row) (set_repo <[FlowRun.id row := row]> w)).

(** [repo.update(id, columns)]: the repository refuses an empty criterion,
    which the empty string is, and rejects before anything is sent to the
    database; otherwise it issues an UPDATE restricted to the primary key,
    which changes the matching row and is silent when there is none. *)
Definition EmptyCriteria : string :=
  "Empty criteria(s) are not allowed for the update method.".

Definition repo_update (flowRunId logsFileId : Id)
    (status : ExecutionOutputStatus) (finishTime : Timestamp) : M unit :=
  λ w, if decide (flowRunId = "")
       then (inl (Rejection EmptyCriteria), w)
       else (inr tt,
             perform (RepoUpdate flowRunId logsFileId status finishTime)
               (set_repo (alter (FlowRun.set_finished logsFileId status finishTime)
                            flowRunId) w)).

(** [repo.findOneBy({ id })] *)
Definition repo_findOneBy (flowRunId : Id) : M (option FlowRun.t) :=
  λ w, (inr (repo w !! flowRunId), w).

(** *** [getFlowVersionOrThrow], [getCollectionVersionOrThrow],
    [getCollectionOrThrow] *)

Definition getFlowVersionOrThrow (id : Id) : M FlowVersion.t :=
  match flowVersionService_getOne id with
  | None => throw (ActivepiecesError FLOW_VERSION_NOT_FOUND id)
  | Some flowVersion => ret flowVersion
  end.

Definition getCollectionVersionOrThrow (id : Id) : M CollectionVersion.t :=
  match collectionVersionService_getOne id with
  | None => throw (ActivepiecesError COLLECTION_VERSION_NOT_FOUND id)
  | Some collectionVersion => ret collectionVersion
  end.

Definition getCollectionOrThrow (id : Id) : M Collection.t :=
  match collectionService_getOne id with
  | None => throw (ActivepiecesError COLLECTION_NOT_FOUND id)
  | Some collection => ret collection
  end.

(** *** [flowRunService]

    The console log line at the head of [start] writes to no state the
    service reads and is left out; failures of the database itself (a lost
    connection, a violated constraint) are not modelled. *)

Record StartParams : Type := mkStartParams {
  sp_instanceId : option Id;
  sp_flowVersionId : Id;
  sp_collectionVersionId : Id;
  sp_payload : Payload
}.

Definition getOne (id : Id) : M (option FlowRun.t) := repo_findOneBy id.

(** [finish]: the columns are computed first ([new Date()] is read while the
    argument of [repo.update] is built), then the update is issued and
    awaited, so that its rejection is the rejection of [finish], then the row
    is read back. *)
Definition finish (flowRunId : Id) (status : ExecutionOutputStatus)
    (logsFileId : Id) : M (option FlowRun.t) :=
  await now := new_Date in
  perform! repo_update flowRunId logsFileId status now in
  getOne flowRunId.

(** [await flowRunSideEffects.start({ flowRun, payload })]: the call is made,
    and its rejection, if any, is the rejection of the caller. *)
Definition sideEffects_start (flowRun : FlowRun.t) (payload : Payload) : M unit :=
  λ w, let w' := perform (SideEffectsStart flowRun payload) w in
       match flowRunSideEffects_start flowRun payload with
       | None => (inr tt, w')
       | Some reason => (inl (Rejection reason), w')
       end.

(** [start]: the three lookups in sequence, then the object literal (whose
    [id] and [startTime] draw an id and read the clock), [repo.save], the
    awaited side effect, and the saved run as the result. *)
Definition start (p : StartParams) : M FlowRun.t :=
  await flowVersion := getFlowVersionOrThrow (sp_flowVersionId p) in
  await collectionVersion := getCollectionVersionOrThrow (sp_collectionVersionId p) in
  await collection := getCollectionOrThrow (CollectionVersion.collectionId collectionVersion) in
  await newId := new_apId in
  await now := new_Date in
  let flowRun :=
    {| PartialFlowRun.id := newId;
       PartialFlowRun.instanceId := sp_instanceId p;
       PartialFlowRun.projectId := Collection.projectId collection;
       PartialFlowRun.collectionId := CollectionVersion.collectionId collectionVersion;
       PartialFlowRun.flowId := FlowVersion.flowId flowVersion;
       PartialFlowRun.flowVersionId := FlowVersion.id flowVersion;
       PartialFlowRun.collectionVersionId := CollectionVersion.id collectionVersion;
       PartialFlowRun.flowDisplayName := FlowVersion.displayName flowVersion;
       PartialFlowRun.collectionDisplayName := CollectionVersion.displayName collectionVersion;
       PartialFlowRun.status := RUNNING;
       PartialFlowRun.startTime := now |} in
  await savedFlowRun := repo_save flowRun in
  perform! sideEffects_start savedFlowRun (sp_payload p) in
  ret savedFlowRun.

(** The row [start] writes once the three lookups have resolved, spelled out
    field by field; [start_resolved] below proves that it is. The row is
    inserted in the world in which the id has just been drawn. *)
Definition started (p : StartParams) (w : World) (flowVersion : FlowVersion.t)
    (collectionVersion : CollectionVersion.t) (collection : Collection.t) : FlowRun.t :=
  {| FlowRun.id := apId (drawn w);
     FlowRun.instanceId := sp_instanceId p;
     FlowRun.projectId := Collection.projectId collection;
     FlowRun.collectionId := CollectionVersion.collectionId collectionVersion;
     FlowRun.flowId := FlowVersion.flowId flowVersion;
     FlowRun.flowVersionId := FlowVersion.id flowVersion;
     FlowRun.collectionVersionId := CollectionVersion.id collectionVersion;
     FlowRun.flowDisplayName := FlowVersion.displayName flowVersion;
     FlowRun.collectionDisplayName := CollectionVersion.displayName collectionVersion;
     FlowRun.status := RUNNING;
     FlowRun.startTime := clock w;
     FlowRun.finishTime := None;
     FlowRun.logsFileId := None;
     FlowRun.created := database_now (set_drawn (S (drawn w)) w) |}.

(** *** Pagination ([helper/pagination]) *)

(** Modelled from the spec: [Order] is declared with the paginator, which is
    not part of the sources at hand; [list] asks for [Order.DESC]. *)
Inductive Order : Set := ASC | DESC.

Definition flipOrder (o : Order) : Order :=
  match o with ASC => DESC | DESC => ASC end.

(** Modelled from the spec: the paginator is not part of the sources at
    hand. A cursor encodes a position in a stable sort order, whose sort key
    is the creation time with the id as tiebreak; the position of a row is
    therefore its [created] column, the pagination key [list] names, together
    with its id. *)
Definition Position : Set := (Timestamp * Id)%type.

(** Modelled from the spec: the position of a row, its sort key. *)
Definition position (r : FlowRun.t) : Position := (FlowRun.created r, FlowRun.id r).

(** Modelled from the spec: positions are ordered by creation time and, at
    equal creation times, by id, ids being compared as strings. *)
Definition position_le (p q : Position) : Prop :=
  (p.1 < q.1)%Z ∨ (p.1 = q.1 ∧ String.le p.2 q.2).

#[global] Instance position_le_dec p q : Decision (position_le p q).
Proof. unfold position_le. apply _. Defined.

(** Modelled from the spec: strictly before, in that order. *)
Definition position_lt : relation Position := strict position_le.

#[global] Instance position_lt_dec p q : Decision (position_lt p q).
Proof. unfold position_lt, strict. apply _. Defined.

(** Modelled from the spec: what a cursor token stands for once decoded, a
    position after which, or before which, the page is to be read; either may
    be absent. *)
Record Cursor : Set := mkCursor {
  nextCursor : option Position;
  previousCursor : option Position
}.

(** Modelled from the spec: the [query] handed to [buildPaginator]. *)
Record PaginationQuery : Set := mkPaginationQuery {
  q_limit : nat;
  q_order : Order;
  q_afterCursor : option Position;
  q_beforeCursor : option Position
}.

(** Modelled from the spec: the [cursor] the paginator returns with the
    rows. *)
Record PagingCursor : Set := mkPagingCursor {
  afterCursor : option Position;
  beforeCursor : option Position
}.

Record SeekPage (A : Type) : Type := mkSeekPage {
  data : list A;
  next : option Cursor;
  previous : option Cursor
}.
Arguments mkSeekPage {A} _ _ _.
Arguments data {A} _.
Arguments next {A} _.
Arguments previous {A} _.

(** Modelled from the spec: [paginationHelper.decodeCursor] and
    [paginationHelper.createPage] are not part of the sources at hand. The
    codec is a pure encode/decode pair, so a token is represented by what it
    decodes to; decoding tolerates an absent token and a token in which
    either position is absent. A page carries one token for the page that
    follows it and one for the page that precedes it. *)
Definition decodeCursor (cursor : option Cursor) : Cursor :=
  default {| nextCursor := None; previousCursor := None |} cursor.

(** Modelled from the spec: the token of the page that follows a position. *)
Definition encodeNextCursor (position : Position) : Cursor :=
  {| nextCursor := Some position; previousCursor := None |}.

(** Modelled from the spec: the token of the page that precedes a position. *)
Definition encodePreviousCursor (position : Position) : Cursor :=
  {| nextCursor := None; previousCursor := Some position |}.

(** Modelled from the spec: [paginationHelper.createPage] wraps the rows and
    the two positions the paginator returns into a page with its two tokens. *)
Definition createPage {A} (rows : list A) (c : PagingCursor) : SeekPage A :=
  {| data := rows;
     next := encodeNextCursor <$> afterCursor c;
     previous := encodePreviousCursor <$> beforeCursor c |}.

(** Modelled from the spec: the order of two rows on the sort key. *)
Definition key_le (o : Order) (x y : FlowRun.t) : Prop :=
  match o with
  | ASC => position_le (position x) (position y)
  | DESC => position_le (position y) (position x)
  end.

#[global] Instance key_le_dec o x y : Decision (key_le o x y).
Proof. destruct o; simpl; apply _. Defined.

Definition hasAfterCursor (q : PaginationQuery) : bool := bool_decide (is_Some (q_afterCursor q)).
Definition hasBeforeCursor (q : PaginationQuery) : bool := bool_decide (is_Some (q_beforeCursor q)).

(** Modelled from the spec: the paginator built by [buildPaginator] is not
    part of the sources at hand. It reads the rows of the query in the
    requested order of the sort key, strictly after the position of the
    after-cursor (or, when only a before-cursor is given, strictly before its
    position, reading backwards and restoring the order afterwards), returns
    no more than [limit] of them, and returns the positions of the last and
    of the first row as the cursors of the following and of the preceding
    page. One row beyond [limit] is read to learn whether a further page
    exists. *)
Definition buildOrder (q : PaginationQuery) : Order :=
  if negb (hasAfterCursor q) && hasBeforeCursor q then flipOrder (q_order q) else q_order q.

(** Modelled from the spec: a row lies strictly beyond a position in the
    given order of the sort key. *)
Definition beyond (o : Order) (c : Position) (r : FlowRun.t) : Prop :=
  match o with
  | ASC => position_lt c (position r)
  | DESC => position_lt (position r) c
  end.

#[global] Instance beyond_dec o c r : Decision (beyond o c r).
Proof. destruct o; simpl; apply _. Defined.

(** Modelled from the spec: the restriction the paginator adds to the query,
    strictly beyond the after-cursor or, failing one, strictly before the
    before-cursor. *)
Definition cursorWhere (q : PaginationQuery) (r : FlowRun.t) : Prop :=
  match q_afterCursor q, q_beforeCursor q with
  | Some c, _ => beyond (q_order q) c r
  | None, Some c => beyond (flipOrder (q_order q)) c r
  | None, None => True
  end.

#[global] Instance cursorWhere_dec q r : Decision (cursorWhere q r).
Proof. unfold cursorWhere. destruct (q_afterCursor q), (q_beforeCursor q); apply _. Defined.

(** Modelled from the spec: the rows the paginator reads, one more than
    [limit], in the order of the sort key. *)
Definition appendPagingQuery (q : PaginationQuery) (rows : list FlowRun.t) : list FlowRun.t :=
  take (S (q_limit q)) (merge_sort (key_le (buildOrder q)) (filter (cursorWhere q) rows)).

(** Modelled from the spec: the page of at most [limit] rows and the
    positions of its last and first row, returned as the cursors of the next
    page (when there is one) and of the previous page. *)
Definition paginate (q : PaginationQuery) (rows : list FlowRun.t)
    : list FlowRun.t * PagingCursor :=
  let fetched := appendPagingQuery q rows in
  let hasMore := bool_decide (q_limit q < length fetched) in
  let entities := if hasMore then take (length fetched - 1) fetched else fetched in
  match entities with
  | [] => ([], {| afterCursor := None; beforeCursor := None |})
  | _ :: _ =>
    let entities :=
      if negb (hasAfterCursor q) && hasBeforeCursor q then reverse entities else entities in
    let nextAfterCursor :=
      if hasBeforeCursor q || hasMore then position <$> last entities else None in
    let nextBeforeCursor :=
      if hasAfterCursor q || (hasMore && hasBeforeCursor q)
      then position <$> head entities else None in
    (entities, {| afterCursor := nextAfterCursor; beforeCursor := nextBeforeCursor |})
  end.

(** *** [flowRunService.list] *)

Record ListParams : Set := mkListParams {
  lp_projectId : Id;
  lp_cursor : option Cursor;
  lp_limit : nat
}.

(** [.where({ projectId }).andWhere("flow_run.instanceId is not null")] *)
Definition listWhere (projectId : Id) (r : FlowRun.t) : Prop :=
  FlowRun.projectId r = projectId ∧ FlowRun.instanceId r ≠ None.

#[global] Instance listWhere_dec projectId r : Decision (listWhere projectId r).
Proof. unfold listWhere. apply _. Defined.

Definition listQuery (projectId : Id) (table : gmap Id FlowRun.t) : list FlowRun.t :=
  filter (listWhere projectId) (map_to_list table).*2.

(** [list]: [paginationKeys: ["created"]] names the column the paginator
    sorts on, [Order.DESC] the direction; the two positions of the decoded
    cursor go to [afterCursor] and [beforeCursor]. *)
Definition flowRunService_list (p : ListParams) : M (SeekPage FlowRun.t) :=
  let decodedCursor := decodeCursor (lp_cursor p) in
  let paginator :=
    {| q_limit := lp_limit p;
       q_order := DESC;
       q_afterCursor := nextCursor decodedCursor;
       q_beforeCursor := previousCursor decodedCursor |} in
  λ w, let query := listQuery (lp_projectId p) (repo w) in
       let '(rows, newCursor) := paginate paginator query in
       (inr (createPage rows newCursor), w).

(** *** What a listing ranges over

    The runs of a project that [list] ranges over, newest first, the part of
    them that comes after a position, the part that comes before one, and
    the queries [list] hands to the paginator for a first page or a page that
    follows a position ([forward]) and for a page that precedes one
    ([backward]). *)








(** The table is keyed by its primary key: every row is stored under its own
    id. *)
Definition keyed (table : gmap Id FlowRun.t) : Prop :=
  map_Forall (λ k r, FlowRun.id r = k) table.

Definition page (projectId : Id) (limit : nat) (cursor : option Cursor) (w : World) :=
  flowRunService_list
    {| lp_projectId := projectId; lp_cursor := cursor; lp_limit := limit |} w.

(** *** The worlds the service runs in *)

Definition initial (now : Timestamp) : World :=
  {| repo := ∅; clock := now; drawn := 0; effects := [] |}.

(** The worlds that arise from an empty table through calls of the service,
    with time passing in between. *)
Inductive reachable : World → Prop :=
  | reachable_initial now : reachable (initial now)
  | reachable_elapse d w : reachable w → reachable (elapse d w)
  | reachable_start p w : reachable w → reachable (start p w).2
  | reachable_finish flowRunId status logsFileId w :
      reachable w → reachable (finish flowRunId status logsFileId w).2
  | reachable_getOne id w : reachable w → reachable (getOne id w).2
  | reachable_list p w : reachable w → reachable (flowRunService_list p w).2.

(** Every row is stored under its own id and none has started in the
    future. *)
Definition repo_wf (w : World) : Prop :=
  ∀ k r, repo w !! k = Some r →
    FlowRun.id r = k ∧ (FlowRun.startTime r ≤ clock w)%Z.

(** No id the generator is still to hand out is in the table. *)
Definition ids_fresh (w : World) : Prop :=
  ∀ n, drawn w ≤ n → repo w !! apId n = None.

(** *** What the rows and the effects tell *)


(** The shape of a row between [start] and [finish] and after [finish]: it
    has not started in the future; it has a finish timestamp exactly when it
    has a logs file; without one it is still [RUNNING]; with one, it finished
    between its start and now. *)
Definition lifecycle (now : Timestamp) (r : FlowRun.t) : Prop :=
  (FlowRun.startTime r ≤ now)%Z ∧
  (FlowRun.finishTime r = None ↔ FlowRun.logsFileId r = None) ∧
  (FlowRun.finishTime r = None → FlowRun.status r = RUNNING) ∧
  (∀ f, FlowRun.finishTime r = Some f → (FlowRun.startTime r ≤ f ≤ now)%Z).

End FlowRunService.

Arguments mkSeekPage {A} _ _ _.
Arguments data {A} _.
Arguments next {A} _.
Arguments previous {A} _.

(** ** The status checker of the test-flow widget

    [setStatusChecker] builds the observable

    [interval(1500) |> takeUntil(exitButtonClicked) |> switchMap(get)
       |> switchMap(load logs or of) |> tap(dispatch) |> takeWhile(...)].

    Its behaviour is a function of the order in which the environment delivers
    the interval ticks, the click on the exit button of the snackbar and the
    answers to the HTTP requests in flight; the pipeline is therefore embedded
    as a transition function over these events, which returns what the pipeline
    does in reaction to each of them. *)

Module StatusChecker.
Section StatusChecker.

(** What [flowService.loadStateLogs] answers with. *)
Context {ExecutionState : Type}.

(** The values that leave the second [switchMap]: the fetched run as it is
    ([of(instanceRun)]) or with the logs merged in
    ([{ ...instanceRun, state: state }]). *)
Record InstanceRun : Type := mkInstanceRun {
  run : FlowRun.t;
  state : option ExecutionState
}.

Inductive Event : Type :=
  | IntervalTick
  | ExitButtonClicked
  | GetResolved (instanceRun : FlowRun.t)
  | GetFailed
  | LoadStateLogsResolved (state : ExecutionState)
  | LoadStateLogsFailed.

Inductive Action : Type :=
  | InstanceRunService_get (runId : Id)
  | FlowService_loadStateLogs (logsFileId : Id)
  | Store_dispatch_setRun (instanceRun : InstanceRun)
  | Next (instanceRun : InstanceRun)
  | Complete
  | Error.

Record Pipeline : Type := mkPipeline {
  subscribed : bool;   (* the observable has neither completed nor failed *)
  ticking : bool;      (* [takeUntil] still lets the interval through *)
  getInFlight : bool;  (* inner subscription of the first [switchMap] *)
  logsInFlight : option FlowRun.t  (* inner subscription of the second one *)
}.

Definition subscribe : Pipeline :=
  {| subscribed := true; ticking := true; getInFlight := false; logsInFlight := None |}.

(** Completion, failure and the unsubscription by [takeWhile] tear the whole
    chain down: the interval is cleared and the requests in flight are
    cancelled. *)
Definition torn_down : Pipeline :=
  {| subscribed := false; ticking := false; getInFlight := false; logsInFlight := None |}.

(** A [switchMap] completes when its source has completed and no inner
    subscription is left. *)
Definition settle (s : Pipeline) (out : list Action) : Pipeline * list Action :=
  if negb (ticking s) && negb (getInFlight s) && bool_decide (logsInFlight s = None)
  then (torn_down, out ++ [Complete])
  else (s, out).

(** [tap]: the run is dispatched when its status is not [RUNNING]. *)
Definition tap (v : InstanceRun) : list Action :=
  if bool_decide (FlowRun.status (run v) ≠ RUNNING)
  then [Store_dispatch_setRun v]
  else [].

(** The predicate of [takeWhile]: the status is [RUNNING] or [PAUSED]. *)
Definition takeWhile_predicate (v : InstanceRun) : bool :=
  bool_decide (FlowRun.status (run v) = RUNNING)
  || bool_decide (FlowRun.status (run v) = PAUSED).

(** A value that leaves the second [switchMap] goes through [tap] and then
    [takeWhile]: kept, it is handed to the subscriber; refused, it is dropped,
    the observable completes and the chain is unsubscribed. *)
Definition emit (v : InstanceRun) (s : Pipeline) : Pipeline * list Action :=
  if takeWhile_predicate v
  then settle s (tap v ++ [Next v])
  else (torn_down, tap v ++ [Complete]).

(** The project function of the second [switchMap]. *)
Definition loadsLogs (instanceRun : FlowRun.t) : option Id :=
  if bool_decide (FlowRun.status instanceRun ≠ RUNNING)
  then FlowRun.logsFileId instanceRun
  else None.

(** The reaction to one event. A tick that [takeUntil] lets through makes the
    first [switchMap] drop the request in flight, if any, and issue a new
    one. The click on the exit button completes the source of the first
    [switchMap]; requests in flight are left to finish. The answer to the
    request in flight enters the second [switchMap], which drops the loading
    in flight, if any, and either loads the logs of the run or passes the run
    on. The answer to the loading in flight passes on the run with the logs
    merged in. A failed request fails the observable. Nothing reaches a chain
    that is no longer subscribed, and no answer comes without a request in
    flight. *)
Definition step (runId : Id) (s : Pipeline) (ev : Event) : Pipeline * list Action :=
  if negb (subscribed s) then (s, []) else
  match ev with
  | IntervalTick =>
      if ticking s
      then ({| subscribed := true; ticking := true; getInFlight := true;
               logsInFlight := logsInFlight s |},
            [InstanceRunService_get runId])
      else (s, [])
  | ExitButtonClicked =>
      if ticking s
      then settle {| subscribed := true; ticking := false;
                     getInFlight := getInFlight s;
                     logsInFlight := logsInFlight s |} []
      else (s, [])
  | GetResolved instanceRun =>
      if getInFlight s then
        match loadsLogs instanceRun with
        | Some logsFileId =>
            ({| subscribed := true; ticking := ticking s; getInFlight := false;
                logsInFlight := Some instanceRun |},
             [FlowService_loadStateLogs logsFileId])
        | None =>
            emit {| run := instanceRun; state := None |}
                 {| subscribed := true; ticking := ticking s; getInFlight := false;
                    logsInFlight := None |}
        end
      else (s, [])
  | GetFailed =>
      if getInFlight s then (torn_down, [Error]) else (s, [])
  | LoadStateLogsResolved st =>
      match logsInFlight s with
      | Some instanceRun =>
          emit {| run := instanceRun; state := Some st |}
               {| subscribed := true; ticking := ticking s;
                  getInFlight := getInFlight s; logsInFlight := None |}
      | None => (s, [])
      end
  | LoadStateLogsFailed =>
      match logsInFlight s with
      | Some _ => (torn_down, [Error])
      | None => (s, [])
      end
  end.

(** The reaction to a sequence of events: the state reached and, event by
    event, what the pipeline did. *)
Fixpoint exec (runId : Id) (s : Pipeline) (evs : list Event)
    : Pipeline * list (list Action) :=
  match evs with
  | [] => (s, [])
  | ev :: evs =>
      let '(s1, out) := step runId s ev in
      let '(s2, outs) := exec runId s1 evs in
      (s2, out :: outs)
  end.

Definition actions (runId : Id) (s : Pipeline) (evs : list Event) : list Action :=
  concat (exec runId s evs).2.

(** The answers to [instanceRunService.get] that reach the pipeline: those
    delivered while the request is in flight and the chain is alive. *)
Fixpoint fetched (runId : Id) (s : Pipeline) (evs : list Event) : list FlowRun.t :=
  match evs with
  | [] => []
  | ev :: evs =>
      let rest := fetched runId (step runId s ev).1 evs in
      match ev with
      | GetResolved instanceRun =>
          if subscribed s && getInFlight s then instanceRun :: rest else rest
      | _ => rest
      end
  end.

(** What a list of actions contains: the runs polled, the log files loaded,
    the runs dispatched to the store, the runs handed to the subscriber. *)
Definition polled (a : Action) : option Id :=
  match a with InstanceRunService_get runId => Some runId | _ => None end.

Definition loaded (a : Action) : option Id :=
  match a with FlowService_loadStateLogs logsFileId => Some logsFileId | _ => None end.

Definition dispatched (a : Action) : option InstanceRun :=
  match a with Store_dispatch_setRun v => Some v | _ => None end.

Definition emitted (a : Action) : option InstanceRun :=
  match a with Next v => Some v | _ => None end.


(** The pipeline still polls on a tick. *)
Definition polling (s : Pipeline) : bool := subscribed s && ticking s.



(** The answer to a poll an event delivers to the pipeline, if it does. *)
Definition accepted (s : Pipeline) (ev : Event) : list FlowRun.t :=
  match ev with
  | GetResolved r => if subscribed s && getInFlight s then [r] else []
  | _ => []
  end.

(** The number of polls that wait for their answer. *)
Definition outstanding (s : Pipeline) : nat := if getInFlight s then 1 else 0.

End StatusChecker.
End StatusChecker.

(** ** The rest of the test-flow widget

    [testFlowButtonClicked] and [executeTest] submit a test run and, once the
    backend has answered with the run, set the status checker above;
    [ngOnInit] derives whether the widget is to be hidden. *)

Module TestFlowWidget.
Section TestFlowWidget.

(** [payload : unknown] *)
Context {Payload : Type}.

(** JavaScript's conversion to a boolean, which [||] applies to the sample
    data, and the object literal [{}]. *)
Variable truthy : Payload → bool.
Variable emptyObject : Payload.

(** [initializedRun], a constant of the [ui/common] package. *)
Variable initializedRun : FlowRun.t.

(** What the widget reads of a [Flow]: [flow.id], [flow.version.id] and
    [flow.version.trigger.settings.inputUiInfo.currentSelectedData]. *)
Record Flow : Type := mkFlow {
  flow_id : Id;
  flow_version_id : Id;
  currentSelectedData : Payload
}.

(** What can reach the error callbacks: the error response of the HTTP
    request, with its numeric [status], or the error thrown by a callback,
    which has none. *)
Inductive Failure : Set :=
  | HttpErrorResponse (status : Z)
  | TypeError.

(** [err?.status] *)
Definition err_status (err : Failure) : option Z :=
  match err with
  | HttpErrorResponse status => Some status
  | TypeError => None
  end.

(** [HttpStatusCode.PaymentRequired] *)
Definition PaymentRequired : Z := 402.

(** The observable [flowService.execute] returns answers once: with the run,
    if any, or with an error response. *)
Inductive Answer : Set :=
  | Answered (instanceRun : option FlowRun.t)
  | Refused (status : Z).

Inductive Action : Type :=
  | FlowService_execute (flowVersionId : Id) (payload : Payload)
  | Store_dispatch_setRun (run : FlowRun.t)
  | Snackbar_openFromComponent (flowId : Id)
  | SetStatusChecker (runId : Id)
  | Console_error (err : Failure)
  | Snackbar_open (message : string) (duration : option Z) (panelClass : string)
  | Store_dispatch_exitRun
  | Next (value : option FlowRun.t)
  | Complete.

(** The [next] callback of [tap]: what it does and what it throws. The run
    null, [instanceRun ?? initializedRun] dispatches the constant, and
    [instanceRun.id] then throws. *)
Definition tap_next (flow : Flow) (instanceRun : option FlowRun.t)
    : list Action * option Failure :=
  let done :=
    [Store_dispatch_setRun (default initializedRun instanceRun);
     Snackbar_openFromComponent (flow_id flow)] in
  match instanceRun with
  | Some run => (done ++ [SetStatusChecker (FlowRun.id run)], None)
  | None => (done, Some TypeError)
  end.

(** The [error] callback of [tap]. *)
Definition tap_error (err : Failure) : list Action := [Console_error err].

(** The selector of [catchError]: it logs, opens the snackbar with one of two
    messages, leaves the run and replaces the failed observable by
    [of(null)]. *)
Definition catchError (err : Failure) : list Action :=
  [Console_error err;
   if bool_decide (err_status err = Some PaymentRequired)
   then Snackbar_open
          "You reached the maximum runs number allowed. Contact support to discuss your plan."
          (Some 3000%Z) "error"
   else Snackbar_open "Instance run failed, please check your console." None "error";
   Store_dispatch_exitRun;
   Next None;
   Complete].

(** [executeTest]: the request, then the reaction to its answer. A value goes
    through the [next] callback of [tap] and on to the subscriber; when the
    callback throws, the error goes straight to [catchError]. An error of the
    request goes through the [error] callback of [tap] and then to
    [catchError]. *)
Definition executeTest (flow : Flow) (payload : Payload) (answer : Answer) : list Action :=
  FlowService_execute (flow_version_id flow) payload ::
  match answer with
  | Answered instanceRun =>
      match tap_next flow instanceRun with
      | (done, None) => done ++ [Next instanceRun; Complete]
      | (done, Some err) => done ++ catchError err
      end
  | Refused status =>
      tap_error (HttpErrorResponse status) ++ catchError (HttpErrorResponse status)
  end.

(** [testFlowButtonClicked] *)
Definition testFlowButtonClicked (flow : Flow) (answer : Answer) : list Action :=
  let realSampleData :=
    if truthy (currentSelectedData flow) then currentSelectedData flow else emptyObject in
  executeTest flow realSampleData answer.

(** What a list of actions contains. *)
Definition checkerSet (a : Action) : option Id :=
  match a with SetStatusChecker runId => Some runId | _ => None end.

Definition runSet (a : Action) : option FlowRun.t :=
  match a with Store_dispatch_setRun run => Some run | _ => None end.

Definition exited (a : Action) : option unit :=
  match a with Store_dispatch_exitRun => Some tt | _ => None end.

Definition handed (a : Action) : option (option FlowRun.t) :=
  match a with Next value => Some value | _ => None end.

Definition messaged (a : Action) : option (string * option Z) :=
  match a with Snackbar_open message duration _ => Some (message, duration) | _ => None end.

Definition executed (a : Action) : option (Id * Payload) :=
  match a with FlowService_execute i p => Some (i, p) | _ => None end.

(** *** [shouldHideTestWidget$]

    [combineLatest] over [isSaving$], which is [of(false)], and the two
    selectors of the store; the events are the emissions of the selectors. *)

Inductive Selected : Set :=
  | CurrentFlowValidity (valid : bool)
  | ReadOnly (isInReadOnlyMode : bool).

Record Latest : Set := mkLatest {
  saving : option bool;
  valid : option bool;
  isInReadOnlyMode : option bool
}.

(** [isSaving$] has emitted [false] by the time the selectors emit. *)
Definition subscribed : Latest :=
  {| saving := Some false; valid := None; isInReadOnlyMode := None |}.

Definition select (l : Latest) (ev : Selected) : Latest :=
  match ev with
  | CurrentFlowValidity v =>
      {| saving := saving l; valid := Some v; isInReadOnlyMode := isInReadOnlyMode l |}
  | ReadOnly r =>
      {| saving := saving l; valid := valid l; isInReadOnlyMode := Some r |}
  end.

(** [combineLatest] emits once every source has emitted; [map] turns the
    record into [!res.valid || res.isInReadOnlyMode]. *)
Definition combined (l : Latest) : option bool :=
  match saving l, valid l, isInReadOnlyMode l with
  | Some _, Some v, Some r => Some (negb v || r)
  | _, _, _ => None
  end.

Fixpoint shouldHideTestWidget (l : Latest) (evs : list Selected) : list bool :=
  match evs with
  | [] => []
  | ev :: evs =>
      option_list (combined (select l ev)) ++ shouldHideTestWidget (select l ev) evs
  end.

Definition validities (ev : Selected) : option bool :=
  match ev with CurrentFlowValidity v => Some v | ReadOnly _ => None end.

Definition readOnlies (ev : Selected) : option bool :=
  match ev with ReadOnly r => Some r | CurrentFlowValidity _ => None end.

End TestFlowWidget.
End TestFlowWidget.

(** ** Concrete collaborators and inputs

    The scenario of the specification: [fv1] belongs to flow [f1], [cv1] to
    collection [c1], and [c1] to project [p1]. *)

Module Scenario.

Definition fv1 : FlowVersion.t :=
  {| FlowVersion.id := "fv1"; FlowVersion.flowId := "f1";
     FlowVersion.displayName := "My Flow" |}.

Definition cv1 : CollectionVersion.t :=
  {| CollectionVersion.id := "cv1"; CollectionVersion.collectionId := "c1";
     CollectionVersion.displayName := "My Collection" |}.

(** A collection version whose collection has been removed. *)
Definition cv2 : CollectionVersion.t :=
  {| CollectionVersion.id := "cv2"; CollectionVersion.collectionId := "c2";
     CollectionVersion.displayName := "Orphan" |}.

Definition c1 : Collection.t :=
  {| Collection.id := "c1"; Collection.projectId := "p1" |}.

Definition flowVersions (id : Id) : option FlowVersion.t :=
  if decide (id = "fv1") then Some fv1 else None.

Definition collectionVersions (id : Id) : option CollectionVersion.t :=
  if decide (id = "cv1") then Some cv1
  else if decide (id = "cv2") then Some cv2 else None.

Definition collections (id : Id) : option Collection.t :=
  if decide (id = "c1") then Some c1 else None.

Fixpoint tally (n : nat) : string :=
  match n with
  | O => ""
  | S n => "i" +:+ tally n
  end.

Definition ids (n : nat) : Id := "run-" +:+ tally n.

(** The clock of the database runs two instants ahead of the backend's. *)
Definition db_now (w : @World string) : Timestamp := (clock w + 2)%Z.

Definition dispatch_resolves (_ : FlowRun.t) (_ : string) : option string := None.

Definition dispatch_rejects (_ : FlowRun.t) (_ : string) : option string :=
  Some "queue unavailable".

Definition start_ok :=
  start flowVersions collectionVersions collections ids db_now dispatch_resolves.

Definition start_rejected :=
  start flowVersions collectionVersions collections ids db_now dispatch_rejects.

Definition params (flowVersionId collectionVersionId : Id) : @StartParams string :=
  {| sp_instanceId := None;
     sp_flowVersionId := flowVersionId;
     sp_collectionVersionId := collectionVersionId;
     sp_payload := "{}" |}.

Definition w0 : @World string := initial 100%Z.

(** A run as [start] leaves it. *)
Definition row (id : Id) (instanceId : option Id) (projectId : Id)
    (status : ExecutionOutputStatus) (logsFileId : option Id)
    (created : Timestamp) : FlowRun.t :=
  {| FlowRun.id := id;
     FlowRun.instanceId := instanceId;
     FlowRun.projectId := projectId;
     FlowRun.collectionId := "c1";
     FlowRun.flowId := "f1";
     FlowRun.flowVersionId := "fv1";
     FlowRun.collectionVersionId := "cv1";
     FlowRun.flowDisplayName := "My Flow";
     FlowRun.collectionDisplayName := "My Collection";
     FlowRun.status := status;
     FlowRun.startTime := created;
     FlowRun.finishTime := None;
     FlowRun.logsFileId := logsFileId;
     FlowRun.created := created |}.

Definition world_of (rows : list FlowRun.t) (now : Timestamp) : @World string :=
  {| repo := list_to_map ((λ r, (FlowRun.id r, r)) <$> rows);
     clock := now; drawn := 0; effects := [] |}.



(** Two runs of [p1] created at the same instant. *)
Definition twin_a : FlowRun.t := row "a" (Some "i1") "p1" SUCCEEDED None 5.
Definition twin_b : FlowRun.t := row "b" (Some "i1") "p1" SUCCEEDED None 5.

Definition twins : @World string := world_of [twin_a; twin_b] 50.

(** A world with one run, started at instant 100, seven instants later. *)
Definition w1 : @World string := elapse 7 (start_ok (params "fv1" "cv1") w0).2.

(** What the polls of the status checker may fetch for a run. *)
Definition running : FlowRun.t := row "run-" None "p1" RUNNING None 100.
Definition paused : FlowRun.t := row "run-" None "p1" PAUSED None 100.
Definition failed : FlowRun.t := row "run-" None "p1" FAILED None 100.
Definition succeeded : FlowRun.t := FlowRun.set_finished "L1" SUCCEEDED 130 running.

Definition checker : StatusChecker.Pipeline := StatusChecker.subscribe.

Definition react (evs : list (@StatusChecker.Event string))
    : list (list (@StatusChecker.Action string)) :=
  (StatusChecker.exec "run-" checker evs).2.

(** The run the first [start] of the scenario saves, and the world it
    leaves. *)
Definition r1 : FlowRun.t := started ids db_now (params "fv1" "cv1") w0 fv1 cv1 c1.

Definition w0' : @World string := (start_ok (params "fv1" "cv1") w0).2.

End Scenario.

(** A widget whose sample data are JSON texts, the empty text standing for
    the absence of sample data. *)
Module WidgetScenario.

Definition truthy (payload : string) : bool := bool_decide (payload ≠ "").

Definition initializedRun : FlowRun.t := Scenario.row "" None "" RUNNING None 0.

Definition flow : @TestFlowWidget.Flow string :=
  {| TestFlowWidget.flow_id := "f1";
     TestFlowWidget.flow_version_id := "fv1";
     TestFlowWidget.currentSelectedData := "" |}.

Definition click (answer : TestFlowWidget.Answer) : list (@TestFlowWidget.Action string) :=
  TestFlowWidget.testFlowButtonClicked truthy "{}" initializedRun flow answer.

End WidgetScenario.

(** * Properties of the backend service *)

Section FlowRunServiceProperties.

Context {Payload : Type}.
Variable flowVersionService_getOne : Id → option FlowVersion.t.
Variable collectionVersionService_getOne : Id → option CollectionVersion.t.
Variable collectionService_getOne : Id → option Collection.t.
Variable apId : nat → Id.
Variable database_now : @World Payload → Timestamp.
Variable flowRunSideEffects_start : FlowRun.t → Payload → option string.

Abbreviation World := (@World Payload).
Abbreviation StartParams := (@StartParams Payload).
Abbreviation flowRunService_start :=
  (start flowVersionService_getOne collectionVersionService_getOne
     collectionService_getOne apId database_now flowRunSideEffects_start).
Abbreviation reachable :=
  (reachable flowVersionService_getOne collectionVersionService_getOne
     collectionService_getOne apId database_now flowRunSideEffects_start).
Abbreviation ids_fresh := (ids_fresh apId).

(** ** [start] *)

Lemma start_resolved p w fv cv c :
  flowVersionService_getOne (sp_flowVersionId p) = Some fv →
  collectionVersionService_getOne (sp_collectionVersionId p) = Some cv →
  collectionService_getOne (CollectionVersion.collectionId cv) = Some c →
  let r := started apId database_now p w fv cv c in
  flowRunService_start p w =
    (match flowRunSideEffects_start r (sp_payload p) with
     | None => inr r
     | Some reason => inl (Rejection reason)
     end,
     {| repo := <[FlowRun.id r := r]> (repo w);
        clock := clock w;
        drawn := S (drawn w);
        effects := (effects w ++ [RepoSave r]) ++ [SideEffectsStart r (sp_payload p)] |}).
Proof.
  intros Hfv Hcv Hc r.
  unfold start, bind, getFlowVersionOrThrow, getCollectionVersionOrThrow,
    getCollectionOrThrow.
  rewrite Hfv; cbn. rewrite Hcv; cbn. rewrite Hc; cbn.
  unfold sideEffects_start; cbn.
  change (stored _ _) with r.
  by destruct (flowRunSideEffects_start r (sp_payload p)).
Qed.

Lemma start_unresolved p w :
  (flowVersionService_getOne (sp_flowVersionId p) = None →
     flowRunService_start p w =
       (inl (ActivepiecesError FLOW_VERSION_NOT_FOUND (sp_flowVersionId p)), w)) ∧
  (∀ fv,
     flowVersionService_getOne (sp_flowVersionId p) = Some fv →
     collectionVersionService_getOne (sp_collectionVersionId p) = None →
     flowRunService_start p w =
       (inl (ActivepiecesError COLLECTION_VERSION_NOT_FOUND (sp_collectionVersionId p)), w)) ∧
  (∀ fv cv,
     flowVersionService_getOne (sp_flowVersionId p) = Some fv →
     collectionVersionService_getOne (sp_collectionVersionId p) = Some cv →
     collectionService_getOne (CollectionVersion.collectionId cv) = None →
     flowRunService_start p w =
       (inl (ActivepiecesError COLLECTION_NOT_FOUND (CollectionVersion.collectionId cv)), w)).
Proof.
  unfold start, bind, getFlowVersionOrThrow, getCollectionVersionOrThrow,
    getCollectionOrThrow, throw, ret.
  split_and!.
  - by intros ->.
  - by intros fv -> ->.
  - by intros fv cv -> -> ->.
Qed.

(** ** [finish] *)

Lemma finish_empty status logsFileId (w : World) :
  finish "" status logsFileId w = (inl (Rejection EmptyCriteria), w).
Proof. reflexivity. Qed.

Lemma finish_unfold (flowRunId : Id) status logsFileId (w : World) :
  flowRunId ≠ "" →
  finish flowRunId status logsFileId w =
    (inr (FlowRun.set_finished logsFileId status (clock w) <$> repo w !! flowRunId),
     {| repo := alter (FlowRun.set_finished logsFileId status (clock w)) flowRunId (repo w);
        clock := clock w;
        drawn := drawn w;
        effects := effects w ++ [RepoUpdate flowRunId logsFileId status (clock w)] |}).
Proof.
  intros Hid. unfold finish, bind, new_Date, repo_update, getOne, repo_findOneBy; cbn.
  rewrite decide_False by done. cbn. by rewrite lookup_alter_eq.
Qed.

(** What [finish] leaves of the world, whatever the id. *)
Lemma finish_world (flowRunId : Id) status logsFileId (w : World) :
  clock (finish flowRunId status logsFileId w).2 = clock w ∧
  drawn (finish flowRunId status logsFileId w).2 = drawn w ∧
  (repo (finish flowRunId status logsFileId w).2 = repo w ∨
   repo (finish flowRunId status logsFileId w).2 =
     alter (FlowRun.set_finished logsFileId status (clock w)) flowRunId (repo w)).
Proof.
  destruct (decide (flowRunId = "")) as [->|Hid].
  - rewrite finish_empty. auto.
  - rewrite finish_unfold by done. cbn. auto.
Qed.

Lemma finish_existing (flowRunId : Id) status logsFileId (w : World) r :
  flowRunId ≠ "" →
  repo w !! flowRunId = Some r →
  let r' := FlowRun.set_finished logsFileId status (clock w) r in
  (finish flowRunId status logsFileId w).1 = inr (Some r') ∧
  repo (finish flowRunId status logsFileId w).2 = <[flowRunId := r']> (repo w).
Proof.
  intros Hid Hr r'. rewrite finish_unfold by done; cbn. rewrite Hr. split; [done|].
  apply map_eq; intros k. rewrite lookup_alter, lookup_insert.
  case_decide; subst; by rewrite ?Hr.
Qed.

Lemma finish_missing (flowRunId : Id) status logsFileId (w : World) :
  flowRunId ≠ "" →
  repo w !! flowRunId = None →
  (finish flowRunId status logsFileId w).1 = inr None ∧
  repo (finish flowRunId status logsFileId w).2 = repo w.
Proof.
  intros Hid Hr. rewrite finish_unfold by done; cbn. rewrite Hr. split; [done|].
  apply map_eq; intros k. rewrite lookup_alter.
  case_decide; subst; by rewrite ?Hr.
Qed.

Lemma set_finished_same logsFileId status fin r :
  FlowRun.same_but_finish r (FlowRun.set_finished logsFileId status fin r).
Proof. unfold FlowRun.same_but_finish. by split_and!. Qed.

(** ** Invariants of the reachable worlds *)

Lemma start_repo p (w : World) :
  repo (flowRunService_start p w).2 = repo w ∨
  ∃ fv cv c,
    let r := started apId database_now p w fv cv c in
    repo (flowRunService_start p w).2 = <[FlowRun.id r := r]> (repo w) ∧
    drawn (flowRunService_start p w).2 = S (drawn w).
Proof.
  destruct (start_unresolved p w) as (H1 & H2 & H3).
  destruct (flowVersionService_getOne (sp_flowVersionId p)) as [fv|] eqn:Hfv;
    [|left; by rewrite H1].
  destruct (collectionVersionService_getOne (sp_collectionVersionId p)) as [cv|] eqn:Hcv;
    [|left; by rewrite (H2 fv)].
  destruct (collectionService_getOne (CollectionVersion.collectionId cv)) as [c|] eqn:Hc;
    [|left; by rewrite (H3 fv cv)].
  right. exists fv, cv, c. intros r.
  by rewrite (start_resolved p w fv cv c Hfv Hcv Hc).
Qed.

Lemma start_clock p (w : World) : clock (flowRunService_start p w).2 = clock w.
Proof.
  destruct (start_unresolved p w) as (H1 & H2 & H3).
  destruct (flowVersionService_getOne (sp_flowVersionId p)) as [fv|] eqn:Hfv;
    [|by rewrite H1].
  destruct (collectionVersionService_getOne (sp_collectionVersionId p)) as [cv|] eqn:Hcv;
    [|by rewrite (H2 fv)].
  destruct (collectionService_getOne (CollectionVersion.collectionId cv)) as [c|] eqn:Hc;
    [|by rewrite (H3 fv cv)].
  by rewrite (start_resolved p w fv cv c Hfv Hcv Hc).
Qed.

Lemma start_drawn p (w : World) : drawn w ≤ drawn (flowRunService_start p w).2.
Proof.
  destruct (start_unresolved p w) as (H1 & H2 & H3).
  destruct (flowVersionService_getOne (sp_flowVersionId p)) as [fv|] eqn:Hfv;
    [|by rewrite H1].
  destruct (collectionVersionService_getOne (sp_collectionVersionId p)) as [cv|] eqn:Hcv;
    [|by rewrite (H2 fv)].
  destruct (collectionService_getOne (CollectionVersion.collectionId cv)) as [c|] eqn:Hc;
    [|by rewrite (H3 fv cv)].
  rewrite (start_resolved p w fv cv c Hfv Hcv Hc); cbn. lia.
Qed.

Lemma list_world p (w : World) : (flowRunService_list p w).2 = w.
Proof. unfold flowRunService_list. by destruct (paginate _ _). Qed.

Lemma reachable_repo_wf (w : World) : reachable w → repo_wf w.
Proof.
  induction 1 as [now|d w _ IH|p w _ IH|flowRunId status logsFileId w _ IH|id w _ IH|p w _ IH].
  - intros k r. cbn. by rewrite lookup_empty.
  - intros k r Hr. destruct (IH k r Hr) as (? & ?). cbn. split; [done|lia].
  - intros k r. rewrite start_clock.
    destruct (start_repo p w) as [->|(fv & cv & c & -> & _)]; [apply IH|].
    rewrite lookup_insert. case_decide as Hk; [|apply IH].
    intros [= <-]. cbn in *. split; [done|lia].
  - intros k r.
    destruct (finish_world flowRunId status logsFileId w) as (-> & _ & [-> | ->]);
      [apply IH|].
    rewrite lookup_alter. case_decide as Hk; [|apply IH]. subst k.
    destruct (repo w !! flowRunId) as [r0|] eqn:Hr0; [|done].
    intros [= <-]. by destruct (IH _ _ Hr0) as (? & ?).
  - done.
  - by rewrite list_world.
Qed.

Lemma reachable_keyed (w : World) : reachable w → keyed (repo w).
Proof. intros Hw k r Hr. by destruct (reachable_repo_wf w Hw k r Hr). Qed.

Lemma reachable_ids_fresh (w : World) :
  Inj (=) (=) apId → reachable w → ids_fresh w.
Proof.
  intros Hinj.
  induction 1 as [now|d w _ IH|p w _ IH|flowRunId status logsFileId w _ IH|id w _ IH|p w _ IH].
  - intros n _. cbn. by rewrite lookup_empty.
  - done.
  - intros n Hn.
    destruct (start_repo p w) as [Hrepo|(fv & cv & c & Hrepo & Hdrawn)].
    + rewrite Hrepo. apply IH. pose proof (start_drawn p w). lia.
    + rewrite Hrepo. rewrite Hdrawn in Hn. cbn. rewrite lookup_insert_ne.
      * apply IH. lia.
      * intros Heq. apply Hinj in Heq. lia.
  - intros n.
    destruct (finish_world flowRunId status logsFileId w) as (_ & -> & [-> | ->]);
      [apply IH|].
    intros Hn. rewrite lookup_alter. case_decide; [|by apply IH].
    subst. by rewrite (IH n Hn).
  - done.
  - by rewrite list_world.
Qed.

(** A generator that never hands out the empty string keeps it out of the
    table. *)
Lemma reachable_ids_not_empty (w : World) (k : Id) r :
  (∀ n, apId n ≠ "") → reachable w → repo w !! k = Some r → k ≠ "".
Proof.
  intros Hne Hw. revert k r.
  induction Hw as [now|d w _ IH|p w _ IH|flowRunId status logsFileId w _ IH|id w _ IH|p w _ IH];
    intros k r.
  - cbn. by rewrite lookup_empty.
  - apply IH.
  - destruct (start_repo p w) as [->|(fv & cv & c & -> & _)]; [apply IH|].
    rewrite lookup_insert. case_decide as Hk; [|apply IH].
    intros _. subst k. cbn. apply Hne.
  - destruct (finish_world flowRunId status logsFileId w) as (_ & _ & [-> | ->]);
      [apply IH|].
    rewrite lookup_alter. case_decide as Hk; [|apply IH]. subst k.
    destruct (repo w !! flowRunId) as [r0|] eqn:Hr0; [|done].
    intros _. by eapply IH.
  - apply IH.
  - rewrite list_world. apply IH.
Qed.

(** ** The claims on [start] *)

(** C1. When one of the three lookups of [start] does not resolve, [start]
    rejects with the not-found error of the failing step, carrying the id
    that was looked up ([FLOW_VERSION_NOT_FOUND], then
    [COLLECTION_VERSION_NOT_FOUND], then [COLLECTION_NOT_FOUND] for the
    collection id of the resolved collection version), and leaves the world
    as it found it: no row is saved, no id is drawn, no effect is performed.
    Conversely, whenever [start] rejects with a not-found error the world is
    unchanged. *)
Theorem start_lookup_failure_persists_nothing (p : StartParams) (w : World) :
  (flowVersionService_getOne (sp_flowVersionId p) = None →
     flowRunService_start p w =
       (inl (ActivepiecesError FLOW_VERSION_NOT_FOUND (sp_flowVersionId p)), w)) ∧
  (∀ fv,
     flowVersionService_getOne (sp_flowVersionId p) = Some fv →
     collectionVersionService_getOne (sp_collectionVersionId p) = None →
     flowRunService_start p w =
       (inl (ActivepiecesError COLLECTION_VERSION_NOT_FOUND (sp_collectionVersionId p)), w)) ∧
  (∀ fv cv,
     flowVersionService_getOne (sp_flowVersionId p) = Some fv →
     collectionVersionService_getOne (sp_collectionVersionId p) = Some cv →
     collectionService_getOne (CollectionVersion.collectionId cv) = None →
     flowRunService_start p w =
       (inl (ActivepiecesError COLLECTION_NOT_FOUND (CollectionVersion.collectionId cv)), w)) ∧
  (∀ code id w', flowRunService_start p w = (inl (ActivepiecesError code id), w') → w' = w).
Proof.
  destruct (start_unresolved p w) as (H1 & H2 & H3).
  split_and!; [done..|].
  intros code id w'.
  destruct (flowVersionService_getOne (sp_flowVersionId p)) as [fv|] eqn:Hfv;
    [|rewrite H1 by done; congruence].
  destruct (collectionVersionService_getOne (sp_collectionVersionId p)) as [cv|] eqn:Hcv;
    [|rewrite (H2 fv) by done; congruence].
  destruct (collectionService_getOne (CollectionVersion.collectionId cv)) as [c|] eqn:Hc;
    [|rewrite (H3 fv cv) by done; congruence].
  rewrite (start_resolved p w fv cv c Hfv Hcv Hc).
  by destruct (flowRunSideEffects_start _ _).
Qed.

(** C2, as the code has it. When the three lookups resolve, [start] first
    saves the run with status [RUNNING] and only then dispatches the side
    effect, to which it hands the saved run and the payload; these are its
    only two effects. The saved run stays in the table whatever the dispatch
    answers. [start] awaits the dispatch: it resolves with the saved run when
    the dispatch resolves, and rejects with the reason of the dispatch when
    the dispatch rejects. *)
Theorem start_saves_then_dispatches (p : StartParams) (w : World) fv cv c :
  flowVersionService_getOne (sp_flowVersionId p) = Some fv →
  collectionVersionService_getOne (sp_collectionVersionId p) = Some cv →
  collectionService_getOne (CollectionVersion.collectionId cv) = Some c →
  ∃ r,
    FlowRun.status r = RUNNING ∧
    effects (flowRunService_start p w).2
      = effects w ++ [RepoSave r; SideEffectsStart r (sp_payload p)] ∧
    repo (flowRunService_start p w).2 = <[FlowRun.id r := r]> (repo w) ∧
    (flowRunSideEffects_start r (sp_payload p) = None → (flowRunService_start p w).1 = inr r) ∧
    (∀ reason,
       flowRunSideEffects_start r (sp_payload p) = Some reason →
       (flowRunService_start p w).1 = inl (Rejection reason)).
Proof.
  intros Hfv Hcv Hc. exists (started apId database_now p w fv cv c).
  rewrite (start_resolved p w fv cv c Hfv Hcv Hc); cbn.
  split_and!; [done| by rewrite <-(assoc_L (++)) |done| by intros -> | by intros ? ->].
Qed.


(** ** The claims on [finish] *)

(** C8, as the repository has it. [finish] on the id of a stored run, the id
    not being the empty string, sets the status and the logs file of the run
    to the arguments and its finish timestamp to the current instant, leaves
    its other columns and the other rows alone, and returns the run as it is
    now stored; in every reachable world that instant is not before the start
    of the run. On a non-empty id that is not in the table [finish] resolves
    with null, without rejecting, and leaves the table as it was. On the
    empty string [finish] rejects, the repository refusing the update, and
    leaves the world as it was. *)
Theorem finish_updates_or_reports_missing (flowRunId : Id) status logsFileId (w : World) :
  (flowRunId = "" →
   finish flowRunId status logsFileId w = (inl (Rejection EmptyCriteria), w)) ∧
  (flowRunId ≠ "" →
   match repo w !! flowRunId with
   | Some r =>
       ∃ r',
         (finish flowRunId status logsFileId w).1 = inr (Some r') ∧
         repo (finish flowRunId status logsFileId w).2 !! flowRunId = Some r' ∧
         FlowRun.status r' = status ∧
         FlowRun.logsFileId r' = Some logsFileId ∧
         FlowRun.finishTime r' = Some (clock w) ∧
         FlowRun.same_but_finish r r' ∧
         (reachable w → (FlowRun.startTime r' ≤ clock w)%Z) ∧
         (∀ k, k ≠ flowRunId →
            repo (finish flowRunId status logsFileId w).2 !! k = repo w !! k)
   | None =>
       (finish flowRunId status logsFileId w).1 = inr None ∧
       repo (finish flowRunId status logsFileId w).2 = repo w
   end).
Proof.
  split; [intros ->; apply finish_empty|]. intros Hid.
  destruct (repo w !! flowRunId) as [r|] eqn:Hr.
  - destruct (finish_existing flowRunId status logsFileId w r Hid Hr) as [Hres Hrepo].
    eexists. split_and!; [exact Hres| |done..|apply set_finished_same| |].
    + by rewrite Hrepo, lookup_insert_eq.
    + intros Hw. cbn. by destruct (reachable_repo_wf w Hw _ _ Hr) as (_ & ?).
    + intros k Hk. by rewrite Hrepo, lookup_insert_ne.
  - by apply finish_missing.
Qed.

(** C9, as the code has it. The id of a stored run is not the empty string,
    in every reachable world of a generator that never hands it out. After a
    second [finish] with the same arguments on such an id the run has the
    status and the logs file the first call gave it, which are the arguments,
    and every other column as before, but for the finish timestamp: it was
    the instant of the first call and is now the instant of the second. No
    other row changes, and the table is the same as after one call when the
    clock has not moved in between. *)
Theorem finish_twice_same_but_finish_time (flowRunId : Id) status logsFileId (d : N)
    (w : World) r :
  repo w !! flowRunId = Some r →
  ((∀ n, apId n ≠ "") → reachable w → flowRunId ≠ "") ∧
  (flowRunId ≠ "" →
   let once := (finish flowRunId status logsFileId w).2 in
   let twice := (finish flowRunId status logsFileId (elapse d once)).2 in
   ∃ r1 r2,
    repo once !! flowRunId = Some r1 ∧
    repo twice !! flowRunId = Some r2 ∧
    FlowRun.status r1 = status ∧
    FlowRun.status r2 = status ∧
    FlowRun.logsFileId r1 = Some logsFileId ∧
    FlowRun.logsFileId r2 = Some logsFileId ∧
    FlowRun.same_but_finish r r1 ∧
    FlowRun.same_but_finish r1 r2 ∧
    FlowRun.finishTime r1 = Some (clock w) ∧
    FlowRun.finishTime r2 = Some (clock w + Z.of_N d)%Z ∧
    (∀ k, k ≠ flowRunId → repo twice !! k = repo once !! k) ∧
    (d = 0%N → repo twice = repo once)).
Proof.
  intros Hr. split; [intros Hne Hw; by eapply reachable_ids_not_empty|].
  intros Hid once twice. subst once twice.
  rewrite !finish_unfold by done; cbn.
  exists (FlowRun.set_finished logsFileId status (clock w) r),
         (FlowRun.set_finished logsFileId status (clock w + Z.of_N d)%Z r).
  split_and!; try done; try apply set_finished_same;
    try (unfold FlowRun.same_but_finish; by split_and!).
  - by rewrite lookup_alter_eq, Hr.
  - by rewrite !lookup_alter_eq, Hr.
  - intros k Hk. by rewrite !lookup_alter_ne.
  - intros ->. rewrite Z.add_0_r. apply map_eq; intros k.
    destruct (decide (flowRunId = k)) as [->|Hk].
    + rewrite !lookup_alter_eq. destruct (repo w !! k); reflexivity.
    + by rewrite !lookup_alter_ne.
Qed.

(** C10. [finish] on the id of a stored run looks neither at the status the
    run has nor at the status it is given: whatever they are, the status and
    the logs file of the run become the arguments and its finish timestamp
    the current instant, its other columns staying as they were, and a later
    [finish] overwrites all three again, with its own arguments and its own
    instant. This holds of every id but the empty string, on which the
    repository refuses the update and which is the id of no stored run in any
    reachable world of a generator that never hands it out. *)
Theorem finish_overwrites_unconditionally (flowRunId : Id) status logsFileId (w : World) r :
  repo w !! flowRunId = Some r →
  ((∀ n, apId n ≠ "") → reachable w → flowRunId ≠ "") ∧
  (flowRunId ≠ "" →
   ∃ r',
    (finish flowRunId status logsFileId w).1 = inr (Some r') ∧
    repo (finish flowRunId status logsFileId w).2 = <[flowRunId := r']> (repo w) ∧
    FlowRun.status r' = status ∧
    FlowRun.logsFileId r' = Some logsFileId ∧
    FlowRun.finishTime r' = Some (clock w) ∧
    FlowRun.same_but_finish r r' ∧
    ∀ status' logsFileId' (d : N),
      ∃ r'',
        (finish flowRunId status' logsFileId'
           (elapse d (finish flowRunId status logsFileId w).2)).1 = inr (Some r'') ∧
        FlowRun.status r'' = status' ∧
        FlowRun.logsFileId r'' = Some logsFileId' ∧
        FlowRun.finishTime r'' = Some (clock w + Z.of_N d)%Z ∧
        FlowRun.same_but_finish r r'').
Proof.
  intros Hr. split; [intros Hne Hw; by eapply reachable_ids_not_empty|]. intros Hid.
  destruct (finish_existing flowRunId status logsFileId w r Hid Hr) as [Hres Hrepo].
  eexists. split_and!; [exact Hres|exact Hrepo|done..|apply set_finished_same|].
  intros status' logsFileId' d.
  exists (FlowRun.set_finished logsFileId' status' (clock w + Z.of_N d)%Z r).
  rewrite !finish_unfold by done; cbn. rewrite lookup_alter_eq, Hr.
  split_and!; try done.
Qed.

End FlowRunServiceProperties.

(** ** The claims at the scenario of the specification *)

Section FlowRunServiceScenario.
Import Scenario.

Lemma start_lookup_failure_witness :
  start_ok (params "fv0" "cv1") w0
    = (inl (ActivepiecesError FLOW_VERSION_NOT_FOUND "fv0"), w0) ∧
  start_ok (params "fv1" "cv0") w0
    = (inl (ActivepiecesError COLLECTION_VERSION_NOT_FOUND "cv0"), w0) ∧
  start_ok (params "fv1" "cv2") w0
    = (inl (ActivepiecesError COLLECTION_NOT_FOUND "c2"), w0).
Proof.
  pose proof (start_lookup_failure_persists_nothing flowVersions collectionVersions
    collections ids db_now dispatch_resolves) as H.
  split_and!.
  - apply (proj1 (H (params "fv0" "cv1") w0)). reflexivity.
  - apply (proj1 (proj2 (H (params "fv1" "cv0") w0)) fv1); reflexivity.
  - apply (proj1 (proj2 (proj2 (H (params "fv1" "cv2") w0))) fv1 cv2); reflexivity.
Defined.

(** The dispatch rejects: [start] rejects with it, although the three
    lookups have resolved and the run has been saved. *)
Lemma start_rejects_when_dispatch_rejects :
  flowVersions "fv1" = Some fv1 ∧
  collectionVersions "cv1" = Some cv1 ∧
  collections "c1" = Some c1 ∧
  (start_rejected (params "fv1" "cv1") w0).1 = inl (Rejection "queue unavailable") ∧
  (∀ r, (start_rejected (params "fv1" "cv1") w0).1 ≠ inr r) ∧
  FlowRun.status <$> repo (start_rejected (params "fv1" "cv1") w0).2 !! "run-"
    = Some RUNNING.
Proof. split_and!; try (vm_compute; reflexivity). intros r. vm_compute. discriminate. Qed.

Lemma start_saves_then_dispatches_witness :
  ∃ r,
    FlowRun.status r = RUNNING ∧
    effects (start_rejected (params "fv1" "cv1") w0).2
      = effects w0 ++ [RepoSave r; SideEffectsStart r "{}"] ∧
    repo (start_rejected (params "fv1" "cv1") w0).2 = <[FlowRun.id r := r]> (repo w0) ∧
    (dispatch_rejects r "{}" = None →
       (start_rejected (params "fv1" "cv1") w0).1 = inr r) ∧
    (∀ reason,
       dispatch_rejects r "{}" = Some reason →
       (start_rejected (params "fv1" "cv1") w0).1 = inl (Rejection reason)).
Proof.
  apply (start_saves_then_dispatches flowVersions collectionVersions collections ids
           db_now dispatch_rejects (params "fv1" "cv1") w0 fv1 cv1 c1); reflexivity.
Defined.


Lemma w1_reachable :
  reachable flowVersions collectionVersions collections ids db_now dispatch_resolves w1.
Proof. apply reachable_elapse, reachable_start, reachable_initial. Defined.

(** The empty string is the id of no run, and [finish] on it rejects where
    it is claimed to resolve with null. *)
Lemma finish_rejects_the_empty_id :
  repo w1 !! "" = None ∧
  (finish "" SUCCEEDED "L1" w1).1 = inl (Rejection EmptyCriteria) ∧
  (finish "" SUCCEEDED "L1" w1).1 ≠ inr None.
Proof. split_and!; [reflexivity..|discriminate]. Qed.

Lemma finish_updates_or_reports_missing_witness :
  finish "" SUCCEEDED "L1" w1 = (inl (Rejection EmptyCriteria), w1) ∧
  (∃ r',
     (finish "run-" SUCCEEDED "L1" w1).1 = inr (Some r') ∧
     repo (finish "run-" SUCCEEDED "L1" w1).2 !! "run-" = Some r' ∧
     FlowRun.status r' = SUCCEEDED ∧
     FlowRun.logsFileId r' = Some "L1" ∧
     FlowRun.finishTime r' = Some 107%Z ∧
     FlowRun.same_but_finish (started ids db_now (params "fv1" "cv1") w0 fv1 cv1 c1) r' ∧
     (FlowRun.startTime r' ≤ 107)%Z ∧
     (∀ k, k ≠ "run-" → repo (finish "run-" SUCCEEDED "L1" w1).2 !! k = repo w1 !! k)) ∧
  ((finish "run-i" SUCCEEDED "L1" w1).1 = inr None ∧
   repo (finish "run-i" SUCCEEDED "L1" w1).2 = repo w1).
Proof.
  split; [|split].
  - apply (finish_updates_or_reports_missing flowVersions collectionVersions collections
             ids db_now dispatch_resolves "" SUCCEEDED "L1" w1). reflexivity.
  - destruct (finish_updates_or_reports_missing flowVersions collectionVersions
                collections ids db_now dispatch_resolves "run-" SUCCEEDED "L1" w1)
      as [_ H].
    destruct (H ltac:(discriminate))
      as (r' & Hres & Hrepo & Hstatus & Hlogs & Hfinish & Hsame & Hstart & Hothers).
    exists r'. split_and!; [done..| |done]. exact (Hstart w1_reachable).
  - destruct (finish_updates_or_reports_missing flowVersions collectionVersions
                collections ids db_now dispatch_resolves "run-i" SUCCEEDED "L1" w1)
      as [_ H].
    exact (H ltac:(discriminate)).
Defined.

(** Five instants pass between two identical calls of [finish]: the run is
    not in the state one call leaves it in. *)
Lemma finish_twice_moves_finish_time :
  repo w1 !! "run-" = Some (started ids db_now (params "fv1" "cv1") w0 fv1 cv1 c1) ∧
  repo (finish "run-" SUCCEEDED "L1"
          (elapse 5 (finish "run-" SUCCEEDED "L1" w1).2)).2 !! "run-"
    ≠ repo (finish "run-" SUCCEEDED "L1" w1).2 !! "run-" ∧
  FlowRun.finishTime <$>
    repo (finish "run-" SUCCEEDED "L1" w1).2 !! "run-" = Some (Some 107%Z) ∧
  FlowRun.finishTime <$>
    repo (finish "run-" SUCCEEDED "L1"
            (elapse 5 (finish "run-" SUCCEEDED "L1" w1).2)).2 !! "run-"
    = Some (Some 112%Z).
Proof. split_and!; try (vm_compute; reflexivity). vm_compute. discriminate. Qed.

Lemma ids_not_empty n : ids n ≠ "".
Proof. unfold ids. cbn. discriminate. Qed.

Lemma finish_twice_same_but_finish_time_witness :
  let r := started ids db_now (params "fv1" "cv1") w0 fv1 cv1 c1 in
  let once := (finish "run-" SUCCEEDED "L1" w1).2 in
  let twice := (finish "run-" SUCCEEDED "L1" (elapse 5 once)).2 in
  "run-" ≠ "" ∧
  ∃ r1 r2,
    repo once !! "run-" = Some r1 ∧
    repo twice !! "run-" = Some r2 ∧
    FlowRun.status r1 = SUCCEEDED ∧
    FlowRun.status r2 = SUCCEEDED ∧
    FlowRun.logsFileId r1 = Some "L1" ∧
    FlowRun.logsFileId r2 = Some "L1" ∧
    FlowRun.same_but_finish r r1 ∧
    FlowRun.same_but_finish r1 r2 ∧
    FlowRun.finishTime r1 = Some 107%Z ∧
    FlowRun.finishTime r2 = Some (107 + Z.of_N 5)%Z ∧
    (∀ k, k ≠ "run-" → repo twice !! k = repo once !! k) ∧
    (5%N = 0%N → repo twice = repo once).
Proof.
  intros r once twice.
  destruct (finish_twice_same_but_finish_time flowVersions collectionVersions collections
              ids db_now dispatch_resolves "run-" SUCCEEDED "L1" 5 w1 r eq_refl)
    as [Hid Htwice].
  split; [exact (Hid ids_not_empty w1_reachable)|].
  exact (Htwice (Hid ids_not_empty w1_reachable)).
Defined.

(** [finish] with the non-terminal status [RUNNING] on a run that has
    already finished as [SUCCEEDED]. *)
Lemma finish_overwrites_unconditionally_witness :
  let r := FlowRun.set_finished "L1" SUCCEEDED 107
             (started ids db_now (params "fv1" "cv1") w0 fv1 cv1 c1) in
  let w2 := elapse 3 (finish "run-" SUCCEEDED "L1" w1).2 in
  FlowRun.status r = SUCCEEDED ∧
  "run-" ≠ "" ∧
  ∃ r',
    (finish "run-" RUNNING "L2" w2).1 = inr (Some r') ∧
    repo (finish "run-" RUNNING "L2" w2).2 = <["run-" := r']> (repo w2) ∧
    FlowRun.status r' = RUNNING ∧
    FlowRun.logsFileId r' = Some "L2" ∧
    FlowRun.finishTime r' = Some 110%Z ∧
    FlowRun.same_but_finish r r' ∧
    ∀ status' logsFileId' (d : N),
      ∃ r'',
        (finish "run-" status' logsFileId'
           (elapse d (finish "run-" RUNNING "L2" w2).2)).1 = inr (Some r'') ∧
        FlowRun.status r'' = status' ∧
        FlowRun.logsFileId r'' = Some logsFileId' ∧
        FlowRun.finishTime r'' = Some (110 + Z.of_N d)%Z ∧
        FlowRun.same_but_finish r r''.
Proof.
  intros r w2. split; [reflexivity|].
  assert (reachable flowVersions collectionVersions collections ids db_now
            dispatch_resolves w2) as Hw2.
  { apply reachable_elapse, reachable_finish, w1_reachable. }
  destruct (finish_overwrites_unconditionally flowVersions collectionVersions collections
              ids db_now dispatch_resolves "run-" RUNNING "L2" w2 r eq_refl)
    as [Hid Hover].
  split; [exact (Hid ids_not_empty Hw2)|].
  exact (Hover (Hid ids_not_empty Hw2)).
Defined.

End FlowRunServiceScenario.

(** * Properties of the listing *)

Section Paging.

Implicit Types l : list FlowRun.t.

(** The order of the positions is a total order. *)
#[local] Instance position_le_po : PartialOrder position_le.
Proof.
  split; [split|].
  - intros [c i]. right. by split.
  - intros [c1 i1] [c2 i2] [c3 i3]. unfold position_le; cbn.
    intros [?|[-> ?]] [?|[-> ?]]; [left; lia..|].
    right. split; [done|]. by trans i2.
  - intros [c1 i1] [c2 i2]. unfold position_le; cbn.
    intros [?|[-> ?]] [?|[? ?]]; try lia.
    f_equal. by apply (anti_symm String.le).
Qed.

#[local] Instance position_le_total : Total position_le.
Proof.
  intros [c1 i1] [c2 i2]. unfold position_le; cbn.
  destruct (Z.lt_trichotomy c1 c2) as [?|[->|?]]; [by left; left| |by right; left].
  destruct (total String.le i1 i2); [left|right]; by right.
Qed.

#[local] Instance position_lt_so : StrictOrder position_lt.
Proof. unfold position_lt. apply _. Qed.



#[local] Instance key_le_trans o : Transitive (key_le o).
Proof. intros x y z. destruct o; simpl; intros; by etrans. Qed.

#[local] Instance key_le_total o : Total (key_le o).
Proof. intros x y. destruct o; simpl; apply (total position_le). Qed.






















Context {Payload : Type}.
Abbreviation World := (@World Payload).









End Paging.

(** ** The listing at concrete tables *)

Section ListingScenario.
Import Scenario.


(** What the pages of the twins hold. *)
Lemma twins_are_both_listed :
  ∃ pg1 n pg2,
    page "p1" 1 None twins = (inr pg1, twins) ∧
    data pg1 = [twin_b] ∧
    next pg1 = Some n ∧
    page "p1" 1 (Some n) twins = (inr pg2, twins) ∧
    data pg2 = [twin_a] ∧
    next pg2 = None.
Proof.
  eexists _, _, _.
  split; [vm_compute; reflexivity|]. split; [reflexivity|]. split; [reflexivity|].
  split; [vm_compute; reflexivity|]. split; reflexivity.
Qed.

End ListingScenario.

(** * Properties of the status checker *)

Section StatusCheckerProperties.
Import StatusChecker.

Context {ExecutionState : Type}.
Variable runId : Id.

Abbreviation Pipeline := Pipeline.
Abbreviation Event := (@Event ExecutionState).
Abbreviation Action := (@Action ExecutionState).
Abbreviation InstanceRun := (@InstanceRun ExecutionState).
Abbreviation step := (@step ExecutionState runId).
Abbreviation exec := (@exec ExecutionState runId).
Abbreviation actions := (@actions ExecutionState runId).
Abbreviation fetched := (@fetched ExecutionState runId).

Implicit Types (s : Pipeline) (ev : Event) (evs : list Event) (v : InstanceRun).

Ltac crush :=
  repeat first
    [ progress cbn in *
    | progress unfold StatusChecker.step, emit, settle, tap, takeWhile_predicate,
        loadsLogs, polling, torn_down in *
    | progress simplify_eq
    | case_match
    | case_bool_decide ];
  try done.

Lemma actions_cons s ev evs :
  actions s (ev :: evs) = (step s ev).2 ++ actions (step s ev).1 evs.
Proof.
  unfold StatusChecker.actions. cbn.
  destruct (step s ev) as [s1 out], (exec s1 evs) as [s2 outs] eqn:Hexec. cbn.
  by rewrite Hexec.
Qed.

Lemma exec_cons s ev evs :
  (exec s (ev :: evs)).1 = (exec (step s ev).1 evs).1.
Proof.
  cbn. destruct (step s ev) as [s1 out], (exec s1 evs) as [s2 outs] eqn:Hexec.
  cbn. by rewrite Hexec.
Qed.





Ltac members :=
  repeat match goal with
         | H : _ ∈ [] |- _ => by apply elem_of_nil in H
         | H : _ ∈ _ :: _ |- _ => apply elem_of_cons in H as [?|?]; simplify_eq
         end.

Lemma step_dispatch s ev v :
  v ∈ omap dispatched (step s ev).2 →
  FlowRun.status (run v) ≠ RUNNING ∧
  (FlowRun.status (run v) ≠ PAUSED → (step s ev).1 = torn_down).
Proof.
  intros Hin. destruct s as [[] [] [] []], ev; crush; members; crush.
Qed.

Lemma actions_torn_down evs : actions torn_down evs = [] ∧ (exec torn_down evs).1 = torn_down.
Proof.
  induction evs as [|ev evs [IH1 IH2]]; [done|].
  rewrite actions_cons, exec_cons. by destruct ev.
Qed.








Lemma step_dispatched_from s ev v :
  v ∈ omap dispatched (step s ev).2 →
  (ev = GetResolved (run v) ∧ subscribed s && getInFlight s = true) ∨
  logsInFlight s = Some (run v).
Proof.
  intros Hin. destruct s as [[] [] [] []], ev; crush; members; crush; auto.
Qed.

Lemma step_logsInFlight s ev r :
  logsInFlight (step s ev).1 = Some r →
  (ev = GetResolved r ∧ subscribed s && getInFlight s = true ∧ is_Some (loadsLogs r)) ∨
  logsInFlight s = Some r.
Proof.
  intros Hin. destruct s as [[] [] [] []], ev; cbn in Hin |- *; auto;
    unfold emit, settle in Hin;
    repeat case_match; cbn in Hin; simplify_eq; auto;
    left; split_and!; eauto.
Qed.

Lemma fetched_cons_subseteq s ev evs : fetched (step s ev).1 evs ⊆ fetched s (ev :: evs).
Proof.
  cbn [StatusChecker.fetched]. destruct ev; try done.
  destruct (subscribed s && getInFlight s); [|done]. set_solver.
Qed.

Lemma fetched_head s r evs :
  subscribed s && getInFlight s = true → r ∈ fetched s (GetResolved r :: evs).
Proof. intros Hs. cbn [StatusChecker.fetched]. rewrite Hs. by left. Qed.

Lemma actions_dispatched_from s evs v :
  v ∈ omap dispatched (actions s evs) →
  run v ∈ fetched s evs ∨ logsInFlight s = Some (run v).
Proof.
  revert s. induction evs as [|ev evs IH]; intros s Hin.
  { by apply elem_of_nil in Hin. }
  rewrite actions_cons, omap_app in Hin. apply elem_of_app in Hin as [Hin|Hin].
  - destruct (step_dispatched_from s ev v Hin) as [[-> Hs]|Hs]; [left|by right].
    by apply fetched_head.
  - destruct (IH _ Hin) as [Hf|Hl].
    + left. by apply fetched_cons_subseteq.
    + destruct (step_logsInFlight s ev _ Hl) as [(-> & Hs & _)|Hs]; [left|by right].
      by apply fetched_head.
Qed.









(** C5, as the pipeline has it. The pipeline dispatches [setRun] only for
    runs whose status is not [RUNNING], and only for runs a poll has fetched.
    Every fetched run that is not [RUNNING], [PAUSED] ones included, is
    dispatched: at once when it has no logs file, with the logs merged in
    when the logs arrive otherwise. A fetched run that is [RUNNING] is never
    dispatched. *)
Theorem dispatch_unless_running :
  (∀ s evs v,
     v ∈ omap dispatched (actions s evs) → FlowRun.status (run v) ≠ RUNNING) ∧
  (∀ evs v,
     v ∈ omap dispatched (actions subscribe evs) → run v ∈ fetched subscribe evs) ∧
  (∀ s r,
     subscribed s = true → getInFlight s = true →
     FlowRun.status r ≠ RUNNING → FlowRun.logsFileId r = None →
     omap dispatched (step s (GetResolved r)).2 = [{| run := r; state := None |}]) ∧
  (∀ s r st,
     subscribed s = true → logsInFlight s = Some r →
     FlowRun.status r ≠ RUNNING →
     omap dispatched (step s (LoadStateLogsResolved st)).2
       = [{| run := r; state := Some st |}]) ∧
  (∀ s r,
     FlowRun.status r = RUNNING →
     omap dispatched (step s (GetResolved r)).2 = []).
Proof.
  split_and!.
  - intros s evs. revert s. induction evs as [|ev evs IH]; intros s v Hin.
    { by apply elem_of_nil in Hin. }
    rewrite actions_cons, omap_app in Hin. apply elem_of_app in Hin as [Hin|Hin].
    + by destruct (step_dispatch s ev v Hin).
    + by eapply IH.
  - intros evs v Hin. by destruct (actions_dispatched_from subscribe evs v Hin).
  - intros s r Hsub Hget Hr Hlogs.
    destruct s as [sub tick get logs]; cbn in Hsub, Hget; subst.
    unfold StatusChecker.step, loadsLogs, emit, settle, tap; cbn.
    rewrite Hlogs, !bool_decide_true by done. by repeat case_match.
  - intros s r st Hsub Hlogs Hr.
    destruct s as [sub tick get logs]; cbn in Hsub, Hlogs; subst.
    unfold StatusChecker.step, emit, settle, tap; cbn.
    rewrite !bool_decide_true by done. by repeat case_match.
  - intros s r Hr. destruct s as [[] tick [] logs]; try done.
    unfold StatusChecker.step, loadsLogs, emit, settle, tap, takeWhile_predicate; cbn.
    rewrite Hr. cbn. by repeat case_match.
Qed.








End StatusCheckerProperties.

(** ** The status checker at concrete runs of events *)

Section StatusCheckerScenario.
Import StatusChecker Scenario.

Abbreviation Event := (@Event string).
Abbreviation step := (@step string "run-").
Abbreviation exec := (@exec string "run-").
Abbreviation actions := (@actions string "run-").
Abbreviation fetched := (@fetched string "run-").
Abbreviation polled := (@polled string).
Abbreviation loaded := (@loaded string).
Abbreviation dispatched := (@dispatched string).
Abbreviation polls := (@InstanceRunService_get string "run-").



(** A poll fetches the run as [PAUSED]: it is dispatched to the store. *)
Lemma paused_run_is_dispatched :
  FlowRun.status paused = PAUSED ∧
  react [IntervalTick; GetResolved paused]
    = [[polls];
       [Store_dispatch_setRun {| run := paused; state := None |};
        Next {| run := paused; state := None |}]].
Proof. split; vm_compute; reflexivity. Qed.

Lemma dispatch_unless_running_witness :
  FlowRun.status paused ≠ RUNNING ∧
  paused ∈ fetched checker [IntervalTick; GetResolved paused] ∧
  omap dispatched (step (exec checker [IntervalTick]).1 (GetResolved paused)).2
    = [{| run := paused; state := None |}] ∧
  omap dispatched
    (step (exec checker [IntervalTick; GetResolved succeeded]).1
       (LoadStateLogsResolved "logs")).2
    = [{| run := succeeded; state := Some "logs" |}] ∧
  omap dispatched (step (exec checker [IntervalTick]).1 (GetResolved running)).2 = [].
Proof.
  pose proof (dispatch_unless_running (ExecutionState := string) "run-")
    as (Hstatus & Hfetched & Hnow & Hlogs & Hrunning).
  assert ({| run := paused; state := None |}
            ∈ omap dispatched (actions checker [IntervalTick; GetResolved paused]))
    as Hin by (vm_compute; by left).
  split_and!.
  - exact (Hstatus _ _ _ Hin).
  - exact (Hfetched _ _ Hin).
  - apply Hnow; done.
  - apply Hlogs; done.
  - apply Hrunning; done.
Defined.



End StatusCheckerScenario.

(** * Further properties of the backend service *)

Section FlowRunServiceExtras.

Context {Payload : Type}.
Variable flowVersionService_getOne : Id → option FlowVersion.t.
Variable collectionVersionService_getOne : Id → option CollectionVersion.t.
Variable collectionService_getOne : Id → option Collection.t.
Variable apId : nat → Id.
Variable database_now : @World Payload → Timestamp.
Variable flowRunSideEffects_start : FlowRun.t → Payload → option string.

Abbreviation World := (@World Payload).
Abbreviation StartParams := (@StartParams Payload).
Abbreviation flowRunService_start :=
  (start flowVersionService_getOne collectionVersionService_getOne
     collectionService_getOne apId database_now flowRunSideEffects_start).
Abbreviation reachable :=
  (reachable flowVersionService_getOne collectionVersionService_getOne
     collectionService_getOne apId database_now flowRunSideEffects_start).

(** What [start] has done when it returns a run. *)
Lemma start_returned p (w w' : World) r :
  flowRunService_start p w = (inr r, w') →
  ∃ fv cv c,
    r = started apId database_now p w fv cv c ∧
    w' = {| repo := <[FlowRun.id r := r]> (repo w);
            clock := clock w;
            drawn := S (drawn w);
            effects := (effects w ++ [RepoSave r]) ++ [SideEffectsStart r (sp_payload p)] |}.
Proof.
  destruct (start_unresolved flowVersionService_getOne collectionVersionService_getOne
              collectionService_getOne apId database_now flowRunSideEffects_start p w) as (H1 & H2 & H3).
  destruct (flowVersionService_getOne (sp_flowVersionId p)) as [fv|] eqn:Hfv;
    [|rewrite H1 by done; congruence].
  destruct (collectionVersionService_getOne (sp_collectionVersionId p)) as [cv|] eqn:Hcv;
    [|rewrite (H2 fv) by done; congruence].
  destruct (collectionService_getOne (CollectionVersion.collectionId cv)) as [c|] eqn:Hc;
    [|rewrite (H3 fv cv) by done; congruence].
  rewrite (start_resolved _ _ _ _ _ _ p w fv cv c Hfv Hcv Hc).
  destruct (flowRunSideEffects_start _ _); intros [= <- <-]. by exists fv, cv, c.
Qed.

(** X1. Whenever [start] returns a run, [getOne] on the id of that run
    returns the very same run and leaves the world alone, and [getOne] on
    every other id answers what it answered before the [start]. *)
Theorem start_then_getOne p (w w' : World) r :
  flowRunService_start p w = (inr r, w') →
  getOne (FlowRun.id r) w' = (inr (Some r), w') ∧
  ∀ id, id ≠ FlowRun.id r → (getOne id w').1 = (getOne id w).1.
Proof.
  intros (fv & cv & c & Hr & ->)%start_returned.
  unfold getOne, repo_findOneBy; cbn. split.
  - by rewrite lookup_insert_eq.
  - intros id Hid. by rewrite lookup_insert_ne.
Qed.

(** X2. With an id generator that never repeats itself, in every reachable
    world [start] leaves every stored run as it is, whether it succeeds or
    not; when it returns a run, the id of that run was not in the table
    before and the table has grown by exactly one row. *)
Theorem start_keeps_the_runs_there_are p (w : World) :
  Inj (=) (=) apId → reachable w →
  (∀ id r0, repo w !! id = Some r0 → repo (flowRunService_start p w).2 !! id = Some r0) ∧
  (∀ r w', flowRunService_start p w = (inr r, w') →
     repo w !! FlowRun.id r = None ∧ size (repo w') = S (size (repo w))).
Proof.
  intros Hinj Hw.
  pose proof (reachable_ids_fresh _ _ _ _ _ _ w Hinj Hw) as Hfresh.
  split.
  - intros id r0 Hr0.
    destruct (start_repo flowVersionService_getOne collectionVersionService_getOne
                collectionService_getOne apId database_now flowRunSideEffects_start p w)
      as [->|(fv & cv & c & -> & _)]; [done|].
    rewrite lookup_insert_ne; [done|]. cbn. intros <-.
    by rewrite (Hfresh (drawn w)) in Hr0.
  - intros r w' (fv & cv & c & Hr & ->)%start_returned. cbn.
    assert (repo w !! FlowRun.id r = None) as Hnone.
    { rewrite Hr. cbn. by apply Hfresh. }
    split; [done|]. by apply map_size_insert_None.
Qed.

(** X3. With an id generator that never repeats itself, two successive
    calls of [start] that return runs return runs with different ids, and both
    runs are in the table afterwards. *)
Theorem successive_starts_make_distinct_runs p1 p2 (w w1 w2 : World) r1 r2 :
  Inj (=) (=) apId →
  flowRunService_start p1 w = (inr r1, w1) →
  flowRunService_start p2 w1 = (inr r2, w2) →
  FlowRun.id r1 ≠ FlowRun.id r2 ∧
  repo w2 !! FlowRun.id r1 = Some r1 ∧
  repo w2 !! FlowRun.id r2 = Some r2.
Proof.
  intros Hinj (fv1 & cv1 & c1 & Hr1 & ->)%start_returned
              (fv2 & cv2 & c2 & Hr2 & ->)%start_returned.
  assert (FlowRun.id r1 ≠ FlowRun.id r2) as Hne.
  { rewrite Hr1, Hr2. cbn. intros Heq%Hinj. lia. }
  split; [done|]. cbn. split.
  - rewrite lookup_insert_ne by done. by rewrite lookup_insert_eq.
  - by rewrite lookup_insert_eq.
Qed.

(** X4. No call of [start] removes an id from the table, and [finish]
    neither removes nor adds one: it writes to a row that is there or to
    none. *)
Theorem runs_are_never_deleted (w : World) :
  (∀ p, dom (repo w) ⊆ dom (repo (flowRunService_start p w).2)) ∧
  (∀ flowRunId status logsFileId,
     dom (repo (finish flowRunId status logsFileId w).2) = dom (repo w)).
Proof.
  split.
  - intros p.
    destruct (start_repo flowVersionService_getOne collectionVersionService_getOne
                collectionService_getOne apId database_now flowRunSideEffects_start p w)
      as [->|(fv & cv & c & -> & _)]; [done|].
    rewrite dom_insert_L. set_solver.
  - intros flowRunId status logsFileId.
    destruct (finish_world flowRunId status logsFileId w) as (_ & _ & [-> | ->]); [done|].
    apply set_eq. intros k. rewrite !elem_of_dom, lookup_alter.
    case_decide; [subst|done]. by rewrite fmap_is_Some.
Qed.

Lemma lifecycle_later now now' r : (now ≤ now')%Z → lifecycle now r → lifecycle now' r.
Proof.
  intros Hle (Hs & Hfl & Hst & Hf). split_and!; [lia|done..|].
  intros f Hff. specialize (Hf f Hff). lia.
Qed.

Lemma start_world p (w : World) :
  (flowRunService_start p w).2 = w ∨
  ∃ fv cv c,
    let r := started apId database_now p w fv cv c in
    (flowRunService_start p w).2 =
      {| repo := <[FlowRun.id r := r]> (repo w);
         clock := clock w;
         drawn := S (drawn w);
         effects := (effects w ++ [RepoSave r]) ++ [SideEffectsStart r (sp_payload p)] |}.
Proof.
  destruct (start_unresolved flowVersionService_getOne collectionVersionService_getOne
              collectionService_getOne apId database_now flowRunSideEffects_start p w) as (H1 & H2 & H3).
  destruct (flowVersionService_getOne (sp_flowVersionId p)) as [fv|] eqn:Hfv;
    [|left; by rewrite H1].
  destruct (collectionVersionService_getOne (sp_collectionVersionId p)) as [cv|] eqn:Hcv;
    [|left; by rewrite (H2 fv)].
  destruct (collectionService_getOne (CollectionVersion.collectionId cv)) as [c|] eqn:Hc;
    [|left; by rewrite (H3 fv cv)].
  right. exists fv, cv, c. intros r.
  by rewrite (start_resolved _ _ _ _ _ _ p w fv cv c Hfv Hcv Hc).
Qed.

(** X5. In every reachable world every stored run sits under its own id,
    which the generator has handed out, has not started in the future, has a
    finish timestamp exactly when it has a logs file, is [RUNNING] as long as
    it has none, and, once it has one, finished between its start and now. *)
Theorem stored_runs_keep_their_lifecycle (w : World) id r :
  reachable w → repo w !! id = Some r →
  FlowRun.id r = id ∧
  lifecycle (clock w) r ∧
  ∃ n, n < drawn w ∧ FlowRun.id r = apId n.
Proof.
  intros Hw. revert id r.
  induction Hw as [now|d w _ IH|p w _ IH|flowRunId status logsFileId w _ IH|id' w _ IH|p w _ IH];
    intros id r.
  - cbn. by rewrite lookup_empty.
  - cbn. intros Hr. destruct (IH id r Hr) as (? & ? & ?).
    split_and!; [done| |done]. eapply lifecycle_later; [|done]. lia.
  - destruct (start_world p w) as [->|(fv & cv & c & ->)]; [apply IH|]. cbn.
    rewrite lookup_insert. case_decide as Hid.
    + intros [= <-]. split_and!; [done| |by exists (drawn w); split; [lia|]].
      unfold lifecycle; cbn. split_and!; [lia|done..].
    + intros Hr. destruct (IH id r Hr) as (? & ? & n & ? & ?).
      split_and!; [done..|]. exists n. split; [lia|done].
  - destruct (finish_world flowRunId status logsFileId w) as (-> & -> & [-> | ->]);
      [apply IH|].
    rewrite lookup_alter.
    case_decide as Hid; [|apply IH]. subst id.
    destruct (repo w !! flowRunId) as [r0|] eqn:Hr0; [|done].
    intros [= <-]. destruct (IH _ _ Hr0) as (? & (? & ? & ? & ?) & ?).
    split_and!; [done| |done].
    unfold lifecycle; cbn. split_and!; [done| | |].
    + split; intros [=].
    + intros [=].
    + intros f [= <-]. lia.
  - apply IH.
  - rewrite list_world. apply IH.
Qed.



Lemma elem_of_listQuery projectId (table : gmap Id FlowRun.t) r :
  r ∈ listQuery projectId table ↔
  FlowRun.projectId r = projectId ∧ FlowRun.instanceId r ≠ None ∧
  ∃ id, table !! id = Some r.
Proof.
  unfold listQuery. rewrite list_elem_of_filter, list_elem_of_fmap. unfold listWhere.
  split.
  - intros [[? ?] ([id r'] & -> & Hin)]. apply elem_of_map_to_list in Hin. eauto.
  - intros (? & ? & id & Hin). split; [done|]. exists (id, r). split; [done|].
    by apply elem_of_map_to_list.
Qed.

(** X7. A run that [start] returns is in the query [list] makes for a
    project exactly when the project is the run's own and the run was started
    with an instance id: a run started without one is in no listing. *)
Theorem started_run_is_listed_iff_it_has_an_instance p (w w' : World) r :
  flowRunService_start p w = (inr r, w') →
  ∀ projectId,
    r ∈ listQuery projectId (repo w') ↔
    projectId = FlowRun.projectId r ∧ sp_instanceId p ≠ None.
Proof.
  intros (fv & cv & c & Hr & ->)%start_returned projectId. cbn.
  rewrite elem_of_listQuery. assert (FlowRun.instanceId r = sp_instanceId p) as -> by by subst.
  split.
  - by intros (-> & ? & _).
  - intros [-> ?]. split_and!; [done..|]. exists (FlowRun.id r). by rewrite lookup_insert_eq.
Qed.

(** X8. [finish] changes no listing: the run under a given id is in the
    query [list] makes for a project after [finish] exactly when the run under
    that id was before. *)
Theorem finish_keeps_the_listings flowRunId status logsFileId (w : World) projectId id :
  (∃ r, repo (finish flowRunId status logsFileId w).2 !! id = Some r ∧
        r ∈ listQuery projectId (repo (finish flowRunId status logsFileId w).2)) ↔
  (∃ r, repo w !! id = Some r ∧ r ∈ listQuery projectId (repo w)).
Proof.
  destruct (decide (flowRunId = "")) as [->|Hne]; [by rewrite finish_empty|].
  rewrite finish_unfold by done; cbn. setoid_rewrite elem_of_listQuery.
  split.
  - intros (r & Hr & Hp & Hi & _). rewrite lookup_alter in Hr. case_decide as Hid.
    + subst id. destruct (repo w !! flowRunId) as [r0|] eqn:Hr0; [|done].
      injection Hr as <-. exists r0. split_and!; eauto.
    + exists r. split_and!; eauto.
  - intros (r & Hr & Hp & Hi & _). destruct (decide (flowRunId = id)) as [->|Hid].
    + exists (FlowRun.set_finished logsFileId status (clock w) r).
      assert (alter (FlowRun.set_finished logsFileId status (clock w)) id (repo w) !! id
              = Some (FlowRun.set_finished logsFileId status (clock w) r)) as Hnew
        by by rewrite lookup_alter_eq, Hr.
      split_and!; eauto.
    + exists r.
      assert (alter (FlowRun.set_finished logsFileId status (clock w)) flowRunId (repo w) !! id
              = Some r) as Hnew by by rewrite lookup_alter_ne.
      split_and!; eauto.
Qed.

(** X9. With an id generator that never repeats itself, in every reachable
    world the query [list] makes for a project after a [start] that returns a
    run holds exactly the runs it held before and, when the project is the
    run's own and the run has an instance id, the new run. *)
Theorem start_adds_at_most_its_run_to_a_listing p (w w' : World) r :
  Inj (=) (=) apId → reachable w →
  flowRunService_start p w = (inr r, w') →
  ∀ projectId x,
    x ∈ listQuery projectId (repo w') ↔
    x ∈ listQuery projectId (repo w) ∨
    (x = r ∧ projectId = FlowRun.projectId r ∧ FlowRun.instanceId r ≠ None).
Proof.
  intros Hinj Hw Hstart projectId x.
  pose proof (reachable_ids_fresh _ _ _ _ _ _ w Hinj Hw) as Hfresh.
  apply start_returned in Hstart as (fv & cv & c & Hr & ->). cbn.
  assert (repo w !! FlowRun.id r = None) as Hnone.
  { rewrite Hr. cbn. by apply Hfresh. }
  rewrite !elem_of_listQuery. split.
  - intros (Hp & Hi & id & Hx). rewrite lookup_insert in Hx. case_decide as Hid.
    + injection Hx as <-. right. by split_and!.
    + left. split_and!; eauto.
  - intros [(Hp & Hi & id & Hx)|(-> & -> & Hi)].
    + split_and!; [done..|]. exists id. rewrite lookup_insert_ne; [done|].
      intros <-. by rewrite Hnone in Hx.
    + split_and!; [done..|]. exists (FlowRun.id r). by rewrite lookup_insert_eq.
Qed.

End FlowRunServiceExtras.

(** ** The further properties at the scenario of the specification *)

Section FlowRunServiceExtrasScenario.
Import Scenario.

Lemma tally_inj n m : tally n = tally m → n = m.
Proof.
  revert m. induction n as [|n IH]; intros [|m]; cbn; try done.
  intros [= Heq]. f_equal. by apply IH.
Qed.

Lemma ids_inj : Inj (=) (=) ids.
Proof. intros n m. unfold ids. cbn. intros [= Heq]. by apply tally_inj. Qed.

Lemma start_ok_returns : start_ok (params "fv1" "cv1") w0 = (inr r1, w0').
Proof. reflexivity. Qed.

Lemma w0'_reachable :
  reachable flowVersions collectionVersions collections ids db_now dispatch_resolves w0'.
Proof. apply reachable_start, reachable_initial. Qed.

Lemma start_then_getOne_witness :
  getOne (FlowRun.id r1) w0' = (inr (Some r1), w0') ∧
  ∀ id, id ≠ FlowRun.id r1 → (getOne id w0').1 = (getOne id w0).1.
Proof.
  exact (start_then_getOne flowVersions collectionVersions collections ids
           db_now dispatch_resolves (params "fv1" "cv1") w0 w0' r1 start_ok_returns).
Defined.

Lemma start_keeps_the_runs_there_are_witness :
  (∀ id r0, repo w0' !! id = Some r0 →
     repo (start_ok (params "fv1" "cv2") w0').2 !! id = Some r0) ∧
  (∀ r w', start_ok (params "fv1" "cv1") w0' = (inr r, w') →
     repo w0' !! FlowRun.id r = None ∧ size (repo w') = S (size (repo w0'))).
Proof.
  split.
  - apply (start_keeps_the_runs_there_are flowVersions collectionVersions collections ids
             db_now dispatch_resolves (params "fv1" "cv2") w0' ids_inj w0'_reachable).
  - apply (start_keeps_the_runs_there_are flowVersions collectionVersions collections ids
             db_now dispatch_resolves (params "fv1" "cv1") w0' ids_inj w0'_reachable).
Defined.

Lemma successive_starts_make_distinct_runs_witness :
  let r2 := started ids db_now (params "fv1" "cv1") w0' fv1 cv1 c1 in
  let w2 := (start_ok (params "fv1" "cv1") w0').2 in
  FlowRun.id r1 ≠ FlowRun.id r2 ∧
  repo w2 !! FlowRun.id r1 = Some r1 ∧
  repo w2 !! FlowRun.id r2 = Some r2.
Proof.
  intros r2 w2.
  apply (successive_starts_make_distinct_runs flowVersions collectionVersions collections
           ids db_now dispatch_resolves (params "fv1" "cv1") (params "fv1" "cv1") w0 w0' w2 r1 r2
           ids_inj start_ok_returns).
  reflexivity.
Defined.

Lemma stored_runs_keep_their_lifecycle_witness :
  let w2 := (finish "run-" SUCCEEDED "L1" w1).2 in
  let r := FlowRun.set_finished "L1" SUCCEEDED 107 r1 in
  FlowRun.id r = "run-" ∧
  lifecycle (clock w2) r ∧
  ∃ n, n < drawn w2 ∧ FlowRun.id r = ids n.
Proof.
  intros w2 r.
  apply (stored_runs_keep_their_lifecycle flowVersions collectionVersions collections ids
           db_now dispatch_resolves w2 "run-" r).
  - apply reachable_finish, w1_reachable.
  - reflexivity.
Defined.


Lemma started_run_is_listed_iff_it_has_an_instance_witness :
  r1 ∈ listQuery (FlowRun.projectId r1) (repo w0') ↔
  FlowRun.projectId r1 = FlowRun.projectId r1 ∧
  sp_instanceId (params "fv1" "cv1") ≠ None.
Proof.
  exact (started_run_is_listed_iff_it_has_an_instance flowVersions collectionVersions
           collections ids db_now dispatch_resolves (params "fv1" "cv1") w0 w0' r1
           start_ok_returns (FlowRun.projectId r1)).
Defined.

Lemma start_adds_at_most_its_run_to_a_listing_witness :
  let r2 := started ids db_now (params "fv1" "cv1") w0' fv1 cv1 c1 in
  let w2 := (start_ok (params "fv1" "cv1") w0').2 in
  r2 ∈ listQuery (FlowRun.projectId r2) (repo w2) ↔
  r2 ∈ listQuery (FlowRun.projectId r2) (repo w0') ∨
  (r2 = r2 ∧ FlowRun.projectId r2 = FlowRun.projectId r2 ∧
   FlowRun.instanceId r2 ≠ None).
Proof.
  intros r2 w2.
  apply (start_adds_at_most_its_run_to_a_listing flowVersions collectionVersions
           collections ids db_now dispatch_resolves (params "fv1" "cv1") w0' w2 r2
           ids_inj w0'_reachable).
  reflexivity.
Defined.

End FlowRunServiceExtrasScenario.

(** * Further properties of the status checker *)

Section StatusCheckerExtras.
Import StatusChecker.

Context {ExecutionState : Type}.
Variable runId : Id.

Abbreviation Pipeline := Pipeline.
Abbreviation Event := (@Event ExecutionState).
Abbreviation Action := (@Action ExecutionState).
Abbreviation InstanceRun := (@InstanceRun ExecutionState).
Abbreviation step := (@step ExecutionState runId).
Abbreviation exec := (@exec ExecutionState runId).
Abbreviation actions := (@actions ExecutionState runId).
Abbreviation fetched := (@fetched ExecutionState runId).

Implicit Types (s : Pipeline) (ev : Event) (evs : list Event) (v : InstanceRun).

Ltac unfold_step :=
  unfold StatusChecker.step, emit, settle, tap, takeWhile_predicate, torn_down;
  cbn.

Ltac sublists :=
  repeat first [apply sublist_nil | apply sublist_skip | apply sublist_cons].

Lemma fetched_cons s ev evs :
  fetched s (ev :: evs) = accepted s ev ++ fetched (step s ev).1 evs.
Proof.
  cbn [StatusChecker.fetched]. destruct ev; try done.
  cbn. by destruct (subscribed s && getInFlight s).
Qed.

Lemma step_dispatches_in_order s ev :
  (run <$> omap dispatched (step s ev).2) ++ option_list (logsInFlight (step s ev).1)
    `sublist_of` option_list (logsInFlight s) ++ accepted s ev.
Proof.
  destruct s as [[] tick [] [r0|]], ev as [| |r| |st|]; unfold_step;
    repeat case_match; cbn; sublists.
Qed.

Lemma actions_dispatches_in_order s evs :
  run <$> omap dispatched (actions s evs)
    `sublist_of` option_list (logsInFlight s) ++ fetched s evs.
Proof.
  revert s. induction evs as [|ev evs IH]; intros s.
  { cbn. apply sublist_nil_l. }
  rewrite actions_cons, omap_app, fmap_app, fetched_cons.
  etrans; [apply sublist_app; [reflexivity|apply IH]|].
  rewrite !(assoc_L (++)). apply sublist_app; [|reflexivity].
  apply step_dispatches_in_order.
Qed.

(** X10. The runs the pipeline dispatches to the store are, in this order,
    runs among those its polls have fetched: every poll result is dispatched
    at most once, and never before a result fetched earlier. *)
Theorem each_fetched_run_is_dispatched_at_most_once evs :
  run <$> omap dispatched (actions subscribe evs) `sublist_of` fetched subscribe evs.
Proof. apply (actions_dispatches_in_order subscribe). Qed.

(** X11. A poll or a loading of logs that fails is not tried again: the
    observable fails, and whatever happens afterwards, the pipeline neither
    polls, loads, dispatches nor emits anything. *)
Theorem a_failed_request_ends_the_polling s ev evs :
  subscribed s = true →
  (ev = GetFailed ∧ getInFlight s = true) ∨
  (ev = LoadStateLogsFailed ∧ is_Some (logsInFlight s)) →
  (step s ev).2 = [Error] ∧ actions (step s ev).1 evs = [].
Proof.
  intros Hsub Hev. destruct s as [sub tick get logs]; cbn in Hsub; subst.
  destruct Hev as [[-> Hget]|[-> [r Hlogs]]]; cbn in *; subst; cbn;
    (split; [done|apply actions_torn_down]).
Qed.

(** X12. The click on the exit button does nothing by itself while a poll
    is in flight, and it does not cancel that poll: its answer makes the
    pipeline load, dispatch and emit exactly what it would have without the
    click, after which, unless logs are still to be loaded, the observable
    completes. *)
Theorem the_exit_click_lets_the_request_in_flight_finish s r :
  subscribed s = true → getInFlight s = true →
  let s1 := (step s ExitButtonClicked).1 in
  (step s ExitButtonClicked).2 = [] ∧
  omap loaded (step s1 (GetResolved r)).2 = omap loaded (step s (GetResolved r)).2 ∧
  omap dispatched (step s1 (GetResolved r)).2 = omap dispatched (step s (GetResolved r)).2 ∧
  omap emitted (step s1 (GetResolved r)).2 = omap emitted (step s (GetResolved r)).2 ∧
  (loadsLogs r = None →
     (step s1 (GetResolved r)).1 = torn_down ∧
     last (step s1 (GetResolved r)).2 = Some Complete).
Proof.
  intros Hsub Hget. destruct s as [sub tick get logs]; cbn in Hsub, Hget; subst.
  destruct tick; unfold_step; (split; [done|]);
    destruct (loadsLogs r) as [f|] eqn:Hl; cbn; rewrite ?Hl; cbn;
    repeat case_match; cbn; split_and!; try done; intros _; by split.
Qed.

Lemma step_accepts_what_was_asked s ev :
  length (accepted s ev) + outstanding (step s ev).1
    ≤ length (omap polled (step s ev).2) + outstanding s.
Proof.
  destruct s as [[] [] [] [r0|]], ev as [| |r| |st|]; unfold outstanding; unfold_step;
    repeat case_match; cbn in *; try done; lia.
Qed.

(** X13. The pipeline never takes more answers than it has issued polls:
    a tick that comes while a poll is in flight replaces that poll. *)
Theorem no_more_answers_than_polls evs :
  length (fetched subscribe evs) ≤ length (omap polled (actions subscribe evs)).
Proof.
  assert (∀ s, length (fetched s evs)
               ≤ length (omap polled (actions s evs)) + outstanding s) as Hgen.
  { induction evs as [|ev evs IH]; intros s; [cbn; lia|].
    rewrite fetched_cons, actions_cons, omap_app, !length_app.
    pose proof (IH (step s ev).1). pose proof (step_accepts_what_was_asked s ev). lia. }
  specialize (Hgen subscribe). cbn in Hgen. lia.
Qed.

Lemma every_poll_asks_for_the_run_of_the_checker s evs :
  Forall (eq runId) (omap polled (actions s evs)).
Proof.
  revert s. induction evs as [|ev evs IH]; intros s; [constructor|].
  rewrite actions_cons, omap_app. apply Forall_app. split; [|apply IH].
  destruct s as [[] [] [] [r0|]], ev as [| |r| |st|]; unfold_step;
    repeat case_match; cbn; repeat constructor.
Qed.
End StatusCheckerExtras.

Section StatusCheckerExtrasScenario.
Import StatusChecker Scenario.

Abbreviation step := (@step string "run-").
Abbreviation exec := (@exec string "run-").
Abbreviation actions := (@actions string "run-").
Abbreviation loaded := (@loaded string).
Abbreviation dispatched := (@dispatched string).
Abbreviation emitted := (@emitted string).

Lemma a_failed_request_ends_the_polling_witness :
  (step (exec checker [IntervalTick]).1 GetFailed).2 = [Error] ∧
  actions (step (exec checker [IntervalTick]).1 GetFailed).1
    [IntervalTick; GetResolved running; IntervalTick] = [].
Proof.
  apply (a_failed_request_ends_the_polling (ExecutionState := string) "run-").
  - reflexivity.
  - left. split; reflexivity.
Defined.

Lemma the_exit_click_lets_the_request_in_flight_finish_witness :
  let s := (exec checker [IntervalTick]).1 in
  let s1 := (step s ExitButtonClicked).1 in
  (step s ExitButtonClicked).2 = [] ∧
  omap loaded (step s1 (GetResolved failed)).2 = omap loaded (step s (GetResolved failed)).2 ∧
  omap dispatched (step s1 (GetResolved failed)).2
    = omap dispatched (step s (GetResolved failed)).2 ∧
  omap emitted (step s1 (GetResolved failed)).2
    = omap emitted (step s (GetResolved failed)).2 ∧
  (loadsLogs failed = None →
     (step s1 (GetResolved failed)).1 = torn_down ∧
     last (step s1 (GetResolved failed)).2 = Some Complete).
Proof.
  intros s.
  apply (the_exit_click_lets_the_request_in_flight_finish (ExecutionState := string)
           "run-" s failed); reflexivity.
Defined.

End StatusCheckerExtrasScenario.

(** * Properties of the rest of the widget *)

Section TestFlowWidgetProperties.
Import TestFlowWidget.

Context {Payload : Type}.
Variable truthy : Payload → bool.
Variable emptyObject : Payload.
Variable initializedRun : FlowRun.t.

Abbreviation Flow := (@Flow Payload).
Abbreviation executeTest := (@executeTest Payload initializedRun).
Abbreviation testFlowButtonClicked :=
  (@testFlowButtonClicked Payload truthy emptyObject initializedRun).

Implicit Types (flow : Flow) (payload : Payload) (answer : Answer).

Lemma catchError_does err :
  ∃ message duration,
    catchError (Payload := Payload) err =
      [Console_error err; Snackbar_open message duration "error";
       Store_dispatch_exitRun; Next None; Complete] ∧
    (message, duration) =
      if bool_decide (err_status err = Some 402%Z)
      then ("You reached the maximum runs number allowed. Contact support to discuss your plan.",
            Some 3000%Z)
      else ("Instance run failed, please check your console.", None).
Proof.
  unfold catchError, PaymentRequired. case_bool_decide; eauto.
Qed.

(** X14. A submission that does not answer with a run never sets the status
    checker. It leaves the run ([exitRun]) exactly once, hands [null] to the
    subscriber and completes instead of failing, and opens the error snackbar
    once: with the message on the allowed number of runs, for three seconds,
    when the request was refused with status 402, and with the message on a
    failed run otherwise. A refused request dispatches no run at all, while a
    null answer has dispatched [initializedRun] and opened the run bar before
    it fails. *)
Theorem a_failed_submission_leaves_the_run flow payload answer :
  (∀ run, answer ≠ Answered (Some run)) →
  let acts := executeTest flow payload answer in
  omap checkerSet acts = [] ∧
  omap exited acts = [()] ∧
  omap handed acts = [None] ∧
  last acts = Some Complete ∧
  omap messaged acts =
    [match answer with
     | Refused status =>
         if bool_decide (status = 402%Z)
         then ("You reached the maximum runs number allowed. Contact support to discuss your plan.",
               Some 3000%Z)
         else ("Instance run failed, please check your console.", None)
     | Answered _ => ("Instance run failed, please check your console.", None)
     end] ∧
  omap runSet acts =
    match answer with
    | Refused _ => []
    | Answered _ => [initializedRun]
    end.
Proof.
  intros Hanswer.
  destruct answer as [[run|]|status]; [by destruct (Hanswer run)|..];
    unfold TestFlowWidget.executeTest, tap_next, tap_error.
  - destruct (catchError_does TypeError) as (message & duration & -> & Hmsg).
    cbn in Hmsg. injection Hmsg as -> ->. cbn. by split_and!.
  - destruct (catchError_does (HttpErrorResponse status))
      as (message & duration & -> & Hmsg).
    cbn. split_and!; [done..| |done]. rewrite Hmsg. cbn.
    by repeat case_bool_decide; simplify_eq.
Qed.

(** X15. The status checker is set only by a submission that answered with
    a run, and then with the id of that run: the run is dispatched to the
    store first, then the run bar is opened, then the checker is set, and the
    run is handed on; the run is not left and no error is shown. Whatever
    happens to the checker so set, every poll it issues asks for that run. *)
Theorem a_submitted_run_sets_the_status_checker flow payload answer runId :
  runId ∈ omap checkerSet (executeTest flow payload answer) →
  ∃ run,
    answer = Answered (Some run) ∧
    FlowRun.id run = runId ∧
    executeTest flow payload answer =
      [FlowService_execute (flow_version_id flow) payload;
       Store_dispatch_setRun run;
       Snackbar_openFromComponent (flow_id flow);
       SetStatusChecker runId;
       Next (Some run);
       Complete] ∧
    ∀ (ExecutionState : Type) s (evs : list (@StatusChecker.Event ExecutionState)),
      Forall (eq (FlowRun.id run))
        (omap StatusChecker.polled (StatusChecker.actions runId s evs)).
Proof.
  destruct answer as [[run|]|status];
    unfold TestFlowWidget.executeTest, tap_next, tap_error.
  - cbn. intros ->%list_elem_of_singleton. exists run. split_and!; [done..|].
    intros ExecutionState s evs. apply every_poll_asks_for_the_run_of_the_checker.
  - destruct (catchError_does TypeError) as (message & duration & -> & _).
    cbn. by intros ?%elem_of_nil.
  - destruct (catchError_does (HttpErrorResponse status)) as (message & duration & -> & _).
    cbn. by intros ?%elem_of_nil.
Qed.

Lemma executeTest_executed flow payload answer :
  omap executed (executeTest flow payload answer) = [(flow_version_id flow, payload)].
Proof.
  destruct answer as [[run|]|status];
    unfold TestFlowWidget.executeTest, tap_next, tap_error; [done|..].
  - by destruct (catchError_does TypeError) as (message & duration & -> & _).
  - by destruct (catchError_does (HttpErrorResponse status)) as (message & duration & -> & _).
Qed.

(** X16. A click on the test button sends exactly one request, for the
    version of the flow, and, the empty object being truthy, never one with a
    falsy payload: the sample data of the trigger when they are truthy, the
    empty object otherwise. *)
Theorem the_payload_sent_is_never_falsy flow answer :
  truthy emptyObject = true →
  ∃ payload,
    omap executed (testFlowButtonClicked flow answer) = [(flow_version_id flow, payload)] ∧
    truthy payload = true ∧
    (truthy (currentSelectedData flow) = true → payload = currentSelectedData flow) ∧
    (truthy (currentSelectedData flow) = false → payload = emptyObject).
Proof.
  intros Hempty. unfold TestFlowWidget.testFlowButtonClicked.
  rewrite executeTest_executed.
  destruct (truthy (currentSelectedData flow)) eqn:Hdata; eexists; by split_and!.
Qed.


Lemma shouldHideTestWidget_app l evs1 evs2 :
  shouldHideTestWidget l (evs1 ++ evs2) =
    shouldHideTestWidget l evs1 ++ shouldHideTestWidget (foldl select l evs1) evs2.
Proof.
  revert l. induction evs1 as [|ev evs1 IH]; intros l; [done|].
  cbn. by rewrite IH, (assoc_L (++)).
Qed.

Lemma foldl_select_saving l evs : saving (foldl select l evs) = saving l.
Proof. revert l. induction evs as [|[] evs IH]; intros l; [done|..]; cbn; by rewrite IH. Qed.

Lemma foldl_select_valid l evs :
  valid (foldl select l evs) = from_option Some (valid l) (last (omap validities evs)).
Proof.
  revert l. induction evs as [|ev evs IH] using rev_ind; intros l; [reflexivity|].
  rewrite foldl_app, omap_app. cbn. destruct ev as [v|r]; cbn.
  - by rewrite last_snoc.
  - by rewrite app_nil_r, IH.
Qed.

Lemma foldl_select_readOnly l evs :
  isInReadOnlyMode (foldl select l evs)
    = from_option Some (isInReadOnlyMode l) (last (omap readOnlies evs)).
Proof.
  revert l. induction evs as [|ev evs IH] using rev_ind; intros l;
    [reflexivity|].
  rewrite foldl_app, omap_app. cbn. destruct ev as [v|r]; cbn.
  - by rewrite app_nil_r, IH.
  - by rewrite last_snoc.
Qed.

(** X17. [shouldHideTestWidget$] has emitted nothing as long as the validity
    of the flow or the read-only mode has not been selected once; from then
    on its latest value says to hide the widget exactly when the latest
    validity is false or the latest read-only mode is true. *)
Theorem the_widget_hides_when_invalid_or_read_only evs :
  last (shouldHideTestWidget subscribed evs) =
    match last (omap validities evs), last (omap readOnlies evs) with
    | Some v, Some r => Some (negb v || r)
    | _, _ => None
    end.
Proof.
  induction evs as [|ev evs IH] using rev_ind; [done|].
  rewrite shouldHideTestWidget_app. cbn [shouldHideTestWidget]. rewrite app_nil_r.
  assert (combined (select (foldl select subscribed evs) ev) =
          match last (omap validities (evs ++ [ev])), last (omap readOnlies (evs ++ [ev])) with
          | Some v, Some r => Some (negb v || r)
          | _, _ => None
          end) as Hnow.
  { unfold combined.
    change (select (foldl select subscribed evs) ev)
      with (foldl select (foldl select subscribed evs) [ev]).
    rewrite <-foldl_app, foldl_select_saving, foldl_select_valid, foldl_select_readOnly.
    cbn. by destruct (last (omap validities (evs ++ [ev]))),
                   (last (omap readOnlies (evs ++ [ev]))). }
  rewrite Hnow.
  destruct (last (omap validities (evs ++ [ev]))) as [v|] eqn:Hv;
    destruct (last (omap readOnlies (evs ++ [ev]))) as [r|] eqn:Hr; cbn.
  - by rewrite last_snoc.
  - rewrite app_nil_r, IH. rewrite omap_app in Hr.
    destruct ev; cbn in Hr.
    + rewrite app_nil_r in Hr. rewrite Hr. by destruct (last (omap validities evs)).
    + by rewrite last_snoc in Hr.
  - rewrite app_nil_r, IH. rewrite omap_app in Hv.
    destruct ev; cbn in Hv.
    + by rewrite last_snoc in Hv.
    + rewrite app_nil_r in Hv. by rewrite Hv.
  - rewrite app_nil_r, IH. rewrite omap_app in Hv.
    destruct ev; cbn in Hv.
    + by rewrite last_snoc in Hv.
    + rewrite app_nil_r in Hv. by rewrite Hv.
Qed.
End TestFlowWidgetProperties.

Section TestFlowWidgetScenario.
Import TestFlowWidget WidgetScenario.

Abbreviation executeTest := (@executeTest string initializedRun).

Lemma a_failed_submission_leaves_the_run_witness :
  let acts := executeTest flow "{}" (Refused 402) in
  omap checkerSet acts = [] ∧
  omap exited acts = [()] ∧
  omap handed acts = [None] ∧
  last acts = Some Complete ∧
  omap messaged acts =
    [("You reached the maximum runs number allowed. Contact support to discuss your plan.",
      Some 3000%Z)] ∧
  omap runSet acts = [].
Proof.
  apply (a_failed_submission_leaves_the_run initializedRun flow "{}" (Refused 402)).
  intros run. discriminate.
Defined.

Lemma a_submitted_run_sets_the_status_checker_witness :
  ∃ run,
    Answered (Some Scenario.running) = Answered (Some run) ∧
    FlowRun.id run = "run-" ∧
    executeTest flow "{}" (Answered (Some Scenario.running)) =
      [FlowService_execute (flow_version_id flow) "{}";
       Store_dispatch_setRun run;
       Snackbar_openFromComponent (flow_id flow);
       SetStatusChecker "run-";
       Next (Some run);
       Complete] ∧
    ∀ (ExecutionState : Type) s (evs : list (@StatusChecker.Event ExecutionState)),
      Forall (eq (FlowRun.id run))
        (omap StatusChecker.polled (StatusChecker.actions "run-" s evs)).
Proof.
  apply (a_submitted_run_sets_the_status_checker initializedRun flow "{}"
           (Answered (Some Scenario.running)) "run-").
  vm_compute. by left.
Defined.

Lemma the_payload_sent_is_never_falsy_witness :
  ∃ payload,
    omap executed (click (Refused 500)) = [(flow_version_id flow, payload)] ∧
    truthy payload = true ∧
    (truthy (currentSelectedData flow) = true → payload = currentSelectedData flow) ∧
    (truthy (currentSelectedData flow) = false → payload = "{}").
Proof.
  apply (the_payload_sent_is_never_falsy truthy "{}" initializedRun flow (Refused 500)).
  reflexivity.
Defined.

End TestFlowWidgetScenario.
